(** * arduino_hashmap: an open-addressing hash table (hashmap.h / hashmap.cpp)

    A shallow embedding of the C implementation and the properties of its
    public interface.

    Modelling conventions.
    - Pointers to keys and values ([any_key_t*], [any_value_t*]) are
      [option]s: [None] is [NULL].  The table only stores and hands back
      these references; keys are inspected through the comparator and the
      hash function of the table only.
    - [size_t] quantities ([_max_size], [_cur_size], slot indices) are
      [nat].  A table with [_max_size] buckets occupies
      [_max_size * sizeof(hashmap_bucket)] bytes with
      [sizeof(hashmap_bucket) >= 3], so [2 * _max_size], [_cur_size + 1]
      and every slot index are representable in [size_t] (and indices in
      [int]) whenever the bucket array exists: no wrap-around is reachable.
    - [int] results are [Z]: a non-negative slot index or one of the
      negative [HASHMAP_*] codes, exactly as [hashmap_hash] and
      [hashmap_find] return them.
    - [uint32_t] hashes are [Z] with the reduction modulo [2^32] written out.
    - A plain [char] is signed (avr-gcc, gcc on x86); only the default hash
      of keys with a byte of 0x80 or more depends on it.
    - The comparator and the hash of a table are total functions.  For the
      default strategies a call on a [NULL] key ([strcmp], [strlen]) is
      undefined in C: [find_probes] lists the bucket keys a lookup passes
      to the comparator, and the general statements about lookups that
      find nothing are made for lookups that pass no [NULL] key.
    - The [byte] flags [_in_use] and [_changed] only ever receive 0 and 1
      ([calloc] zeroes them, the code stores the literals 0 and 1): they are
      [bool], [x == 1] reading [x = true] and [x == 0] reading [x = false].
    - [calloc]/[realloc] may fail.  The heap is an oracle: the stream of
      outcomes of the allocation requests still to come.
    - [hashmap_put] and [hashmap_rehash] are mutually recursive in C; the
      model takes a recursion budget ([fuel]) and returns [None] when it is
      exhausted.  Totality for well-formed tables is proved below. *)

From Stdlib Require Import ZArith Lia String Ascii.
From stdpp Require Import base list.

(** ** Constants of hashmap.h *)

Definition HASHMAP_DEFAULT_SIZE : nat := 16.

Definition HASHMAP_OK : Z := 0.
Definition HASHMAP_ERR : Z := -1.
Definition HASHMAP_FULL : Z := -2.
Definition HASHMAP_EMPTY : Z := -3.
Definition HASHMAP_NOT_FOUND : Z := -4.

(** ** The allocator *)

(** [h n] tells whether the [n]-th allocation request from now succeeds. *)
Definition heap := nat → bool.

(** One allocation request ([calloc] or [realloc]): its outcome and the
    remaining stream. *)
Definition alloc (h : heap) : bool * heap := (h 0, λ n, h (S n)).

(** A word of freshly (re)allocated, not yet written memory has no
    determined content. *)
Inductive cell (A : Type) : Type :=
  | Indeterminate : cell A
  | Stored : A → cell A.
Arguments Indeterminate {A}.
Arguments Stored {A} _.

(** [realloc(old, n * sizeof(T))]: the first [min (length old) n] words are
    kept, the others are fresh. [old = None] is [realloc(NULL, ..)]. *)
Definition realloc_cells {A} (old : option (list (cell A))) (n : nat)
  : list (cell A) :=
  let kept := take n (default [] old) in
  kept ++ replicate (n - length kept) Indeterminate.

(** ** The default string strategies *)

Definition u32 (z : Z) : Z := (z mod 2 ^ 32)%Z.

Definition char_code (c : ascii) : Z := Z.of_nat (nat_of_ascii c).

(** The value of [key[i]], a plain [char]: signed, as avr-gcc (the
    library's target) and gcc on x86 have it, so that a byte of 0x80 or
    more is a negative number. *)
Definition plain_char (c : ascii) : Z :=
  if (char_code c <? 128)%Z then char_code c else (char_code c - 256)%Z.

(** Body of the loop of [hashmap_key_hash_str]: [hash += key[i]] converts
    the [char] to [uint32_t], which the reduction modulo [2^32] does. *)
Definition oaat_mix (hash : Z) (c : ascii) : Z :=
  let hash := u32 (hash + plain_char c) in
  let hash := u32 (hash + u32 (Z.shiftl hash 10)) in
  Z.lxor hash (Z.shiftr hash 6).

Fixpoint oaat_loop (hash : Z) (key : string) : Z :=
  match key with
  | EmptyString => hash
  | String c rest => oaat_loop (oaat_mix hash c) rest
  end.

(** Bob Jenkins' one-at-a-time hash of the characters before the
    terminator. *)
Definition one_at_a_time (key : string) : Z :=
  let hash := oaat_loop 0%Z key in
  let hash := u32 (hash + u32 (Z.shiftl hash 3)) in
  let hash := Z.lxor hash (Z.shiftr hash 11) in
  u32 (hash + u32 (Z.shiftl hash 15)).

(** [strcmp]: zero iff the strings are equal, otherwise the difference of
    the first pair of differing characters (as unsigned char). *)
Fixpoint strcmp (s1 s2 : string) : Z :=
  match s1, s2 with
  | EmptyString, EmptyString => 0%Z
  | EmptyString, String c2 _ => (0 - char_code c2)%Z
  | String c1 _, EmptyString => char_code c1
  | String c1 r1, String c2 r2 =>
      if Ascii.eqb c1 c2 then strcmp r1 r2
      else (char_code c1 - char_code c2)%Z
  end.

Section Hashmap.

(** What key and value pointers point to. *)
Context {any_key_t any_value_t : Type}.

(** The default strategies cast the key pointer to [const char*]:
    [as_chars k] is the string (without its terminator) found at [k]. *)
Variable as_chars : any_key_t → string.

Definition key_ptr : Type := option any_key_t.
Definition value_ptr : Type := option any_value_t.

Definition hashmap_key_compare : Type := key_ptr → key_ptr → Z.
Definition hashmap_key_hash : Type := key_ptr → Z.

(** [hashmap_fun], a function from [void *data] and a value pointer to
    [int]: the callback reads and updates whatever [data] reaches (state
    [D]) and returns a status.  It does not call back into the table being
    iterated. *)
Definition hashmap_fun (D : Type) : Type := D → value_ptr → Z * D.

(** *** Internal data structures *)

Record hashmap_bucket : Type := {
  _key : key_ptr;
  _value : value_ptr;
  _in_use : bool
}.

Record hashmap_map : Type := {
  _buckets : list hashmap_bucket;
  _keys : option (list (cell key_ptr));
  _compare : hashmap_key_compare;
  _hash : hashmap_key_hash;
  _max_size : nat;
  _cur_size : nat;
  _changed : bool
}.

(** [hashmap_ptr]: [None] is the [NULL] handle. *)
Definition hashmap_ptr : Type := option hashmap_map.

(** A bucket as [calloc] leaves it. *)
Definition zero_bucket : hashmap_bucket :=
  {| _key := None; _value := None; _in_use := false |}.

(** [_buckets[i]].  Reading past the array is undefined in C and does not
    happen when [length _buckets = _max_size]; the model reads a zeroed
    bucket there. *)
Definition bucket_at (map : hashmap_map) (i : nat) : hashmap_bucket :=
  default zero_bucket (_buckets map !! i).

(** *** Default strategies (private interface) *)

(** The string at a key pointer.  Passing [NULL] to [strcmp] or [strlen]
    is undefined: the value given here for [NULL] stands for no behaviour
    of the code.  [hashmap_find] compares before it tests [_in_use], so it
    passes the [NULL] key of a never-used bucket to the comparator.  The
    general statements about what a lookup that finds nothing returns
    therefore carry the proviso that the keys the lookup passes to the
    comparator ([find_probes] below) are not [NULL]; [hashmap_find_defined]
    below is the same loop with [strcmp] left without a result on
    [NULL]. *)
Definition c_str (key : key_ptr) : string :=
  match key with
  | Some k => as_chars k
  | None => EmptyString
  end.

Definition hashmap_key_compare_str : hashmap_key_compare :=
  λ key1 key2, strcmp (c_str key1) (c_str key2).

Definition hashmap_key_hash_str : hashmap_key_hash :=
  λ key, one_at_a_time (c_str key).

(** *** hashmap_new *)

Definition hashmap_new (h : heap) (max_size : nat)
    (compare_fun : option hashmap_key_compare)
    (hash_fun : option hashmap_key_hash) : hashmap_ptr * heap :=
  (* alloc hashmap *)
  let '(ok, h) := alloc h in
  if negb ok then (None, h)
  else
    (* check input parameters *)
    let max := if (max_size <=? 0)%nat then HASHMAP_DEFAULT_SIZE
               else max_size in
    (* alloc support memory *)
    let '(ok, h) := alloc h in
    if negb ok then (None, h)
    else
      (Some {| _buckets := replicate max zero_bucket;
               _keys := None;
               _compare := default hashmap_key_compare_str compare_fun;
               _hash := default hashmap_key_hash_str hash_fun;
               _max_size := max;
               _cur_size := 0;
               _changed := true |}, h).

(** *** hashmap_hash: the placement algorithm *)

(** The [for] loop of [hashmap_hash] with [n] iterations left. *)
Fixpoint hash_seek (map : hashmap_map) (key : key_ptr)
    (n cur_index : nat) : Z :=
  match n with
  | O => HASHMAP_FULL
  | S n' =>
      let b := bucket_at map cur_index in
      (* bucket unused *)
      if negb (_in_use b) then Z.of_nat cur_index
      (* bucket used, same key *)
      else if (_compare map (_key b) key =? 0)%Z && _in_use b
      then Z.of_nat cur_index
      (* check next bucket *)
      else hash_seek map key n' ((cur_index + 1) mod _max_size map)
  end.

(** [hash(key) % _max_size], the first slot probed. *)
Definition best_index (map : hashmap_map) (key : key_ptr) : nat :=
  Z.to_nat (_hash map key mod Z.of_nat (_max_size map))%Z.

Definition hashmap_hash (map : hashmap_ptr) (key : key_ptr) : Z :=
  match map with
  | Some map =>
      (* return if full *)
      if (_cur_size map =? _max_size map)%nat then HASHMAP_FULL
      else hash_seek map key (_max_size map) (best_index map key)
  | None => HASHMAP_ERR
  end.

(** *** hashmap_find: the lookup algorithm *)

Fixpoint find_seek (map : hashmap_map) (key : key_ptr)
    (n cur_index : nat) : Z :=
  match n with
  | O => HASHMAP_NOT_FOUND
  | S n' =>
      let b := bucket_at map cur_index in
      (* bucket used, same key: found *)
      if (_compare map (_key b) key =? 0)%Z && _in_use b
      then Z.of_nat cur_index
      else find_seek map key n' ((cur_index + 1) mod _max_size map)
  end.

Definition hashmap_find (map : hashmap_ptr) (key : key_ptr) : Z :=
  match map with
  | Some map =>
      if (_cur_size map =? 0)%nat then HASHMAP_EMPTY
      else find_seek map key (_max_size map) (best_index map key)
  | None => HASHMAP_ERR
  end.

(** *** hashmap_put and hashmap_rehash *)

(** "fill the bucket" (the tail of [hashmap_put]). *)
Definition fill_bucket (map : hashmap_map) (index : nat)
    (key : key_ptr) (value : value_ptr) : hashmap_map :=
  {| _buckets := <[index := {| _key := key; _value := value;
                               _in_use := true |}]> (_buckets map);
     _keys := _keys map;
     _compare := _compare map;
     _hash := _hash map;
     _max_size := _max_size map;
     _cur_size := S (_cur_size map);
     _changed := true |}.

(** Result of a call that may exhaust the recursion budget: status, the
    table behind the handle afterwards, the heap afterwards. *)
Definition outcome : Type := option (Z * hashmap_ptr * heap).

(** The re-insertion loop of [hashmap_rehash], from index [i] with [n]
    iterations left; [put] is the (recursive) call to [hashmap_put]. *)
Fixpoint rehash_loop
    (put : heap → hashmap_ptr → key_ptr → value_ptr → outcome)
    (old_buckets : list hashmap_bucket) (n i : nat)
    (h : heap) (map : hashmap_ptr) : outcome :=
  match n with
  | O => Some (HASHMAP_OK, map, h)
  | S n' =>
      let b := default zero_bucket (old_buckets !! i) in
      if _in_use b then
        match put h map (_key b) (_value b) with
        | None => None
        | Some (status, map, h) =>
            if negb (status =? HASHMAP_OK)%Z
            then Some (status, map, h) (* corrupted state! *)
            else rehash_loop put old_buckets n' (S i) h map
        end
      else rehash_loop put old_buckets n' (S i) h map
  end.

(** The table once [hashmap_rehash] has installed the new, zeroed bucket
    array of twice the capacity and reset the live count. *)
Definition doubled (map : hashmap_map) : hashmap_map :=
  {| _buckets := replicate (2 * _max_size map) zero_bucket;
     _keys := _keys map;
     _compare := _compare map;
     _hash := _hash map;
     _max_size := 2 * _max_size map;
     _cur_size := 0;
     _changed := _changed map |}.

(** [hashmap_rehash], open in its call to [hashmap_put]. *)
Definition hashmap_rehash_with
    (put : heap → hashmap_ptr → key_ptr → value_ptr → outcome)
    (h : heap) (map : hashmap_ptr) : outcome :=
  match map with
  | Some map =>
      (* setup new memory *)
      let '(ok, h) := alloc h in
      if negb ok then Some (HASHMAP_ERR, Some map, h) (* memory exhausted *)
      else
        let old_buckets := _buckets map in
        let old_size := _max_size map in
        (* update memory, update size *)
        let map := doubled map in
        (* rehash the elements *)
        rehash_loop put old_buckets old_size 0 h (Some map)
  | None => Some (HASHMAP_ERR, None, h)
  end.

(** [hashmap_put].  After a successful rehash the [while] loop recomputes
    [index = hashmap_hash(_map, key)] and tests it again, which is what
    the function does on entry: the next iteration is the recursive
    call. *)
Fixpoint hashmap_put (fuel : nat) (h : heap) (map : hashmap_ptr)
    (key : key_ptr) (value : value_ptr) : outcome :=
  match fuel with
  | O => None
  | S fuel =>
      match map with
      | Some _map =>
          (* find a suitable bucket, if any *)
          let index := hashmap_hash (Some _map) key in
          if (index =? HASHMAP_FULL)%Z then
            match hashmap_rehash_with (hashmap_put fuel) h (Some _map) with
            | None => None
            | Some (status, map, h) =>
                if (status =? HASHMAP_OK)%Z
                then hashmap_put fuel h map key value
                else Some (HASHMAP_FULL, map, h)
            end
          else
            (* fill the bucket *)
            Some (HASHMAP_OK,
                  Some (fill_bucket _map (Z.to_nat index) key value), h)
      | None => Some (HASHMAP_ERR, None, h)
      end
  end.

Definition hashmap_rehash (fuel : nat) (h : heap) (map : hashmap_ptr)
    : outcome :=
  match fuel with
  | O => None
  | S fuel => hashmap_rehash_with (hashmap_put fuel) h map
  end.

(** *** hashmap_get *)

(** Status and what is written through the output parameter [value]
    ([None]: nothing is written). *)
Definition hashmap_get (map : hashmap_ptr) (key : key_ptr)
    : Z * option value_ptr :=
  match map with
  | Some _map =>
      let index := hashmap_find (Some _map) key in
      if (index <? 0)%Z then (index, None)
      else (HASHMAP_OK, Some (_value (bucket_at _map (Z.to_nat index))))
  | None => (HASHMAP_ERR, None)
  end.

(** *** hashmap_remove *)

(** "set bucket as not used". *)
Definition clear_bucket (map : hashmap_map) (index : nat) : hashmap_map :=
  let b := bucket_at map index in
  {| _buckets := <[index := {| _key := _key b; _value := _value b;
                               _in_use := false |}]> (_buckets map);
     _keys := _keys map;
     _compare := _compare map;
     _hash := _hash map;
     _max_size := _max_size map;
     _cur_size := _cur_size map - 1;
     _changed := true |}.

(** Status, the table afterwards, and the value offered to the output
    parameter (stored there when the caller's [value] is not [NULL]). *)
Definition hashmap_remove (map : hashmap_ptr) (key : key_ptr)
    : Z * hashmap_ptr * option value_ptr :=
  match map with
  | Some _map =>
      let index := hashmap_find (Some _map) key in
      if (index <? 0)%Z then (index, Some _map, None)
      else
        let _map := clear_bucket _map (Z.to_nat index) in
        (HASHMAP_OK, Some _map,
         Some (_value (bucket_at _map (Z.to_nat index))))
  | None => (HASHMAP_ERR, None, None)
  end.

(** *** hashmap_keys *)

(** The copy loop, at slot [i] with [n] slots left and [j] keys
    written. *)
Fixpoint keys_loop (map : hashmap_map) (n i j : nat)
    (keys : list (cell key_ptr)) : list (cell key_ptr) :=
  match n with
  | O => keys
  | S n' =>
      if (j <? _cur_size map)%nat then
        if _in_use (bucket_at map i)
        then keys_loop map n' (S i) (S j)
               (<[j := Stored (_key (bucket_at map i))]> keys)
        else keys_loop map n' (S i) j keys
      else keys
  end.

(** Status, the table afterwards, the outputs [( *keys, *size )] when
    they are written, the heap afterwards. *)
Definition hashmap_keys (h : heap) (map : hashmap_ptr)
    : Z * hashmap_ptr * option (list (cell key_ptr) * nat) * heap :=
  match map with
  | Some _map =>
      (* return if hashmap is empty *)
      if (_cur_size _map =? 0)%nat then (HASHMAP_EMPTY, Some _map, None, h)
      else if _changed _map then
        (* (re-)allocate memory *)
        let '(ok, h) := alloc h in
        if negb ok then
          (HASHMAP_ERR,
           Some {| _buckets := _buckets _map; _keys := None;
                   _compare := _compare _map; _hash := _hash _map;
                   _max_size := _max_size _map;
                   _cur_size := _cur_size _map;
                   _changed := _changed _map |}, None, h)
        else
          (* copy active bucket keys into new array *)
          let keys :=
            keys_loop _map (_max_size _map) 0 0
              (realloc_cells (_keys _map) (_cur_size _map)) in
          (HASHMAP_OK,
           Some {| _buckets := _buckets _map; _keys := Some keys;
                   _compare := _compare _map; _hash := _hash _map;
                   _max_size := _max_size _map;
                   _cur_size := _cur_size _map;
                   _changed := false |},
           Some (keys, _cur_size _map), h)
      else (HASHMAP_OK, Some _map,
            Some (default [] (_keys _map), _cur_size _map), h)
  | None => (HASHMAP_ERR, None, None, h)
  end.

(** *** hashmap_iterate *)

Fixpoint iterate_loop {D : Type} (map : hashmap_map) (f : hashmap_fun D)
    (check_status : bool) (n i : nat) (data : D) : Z * D :=
  match n with
  | O => (HASHMAP_OK, data)
  | S n' =>
      if _in_use (bucket_at map i) then
        let '(status, data) := f data (_value (bucket_at map i)) in
        (* early stop on error *)
        if check_status && negb (status =? HASHMAP_OK)%Z
        then (status, data)
        else iterate_loop map f check_status n' (S i) data
      else iterate_loop map f check_status n' (S i) data
  end.

Definition hashmap_iterate_impl {D : Type} (map : hashmap_ptr)
    (f : hashmap_fun D) (data : D) (check_status : bool) : Z * D :=
  match map with
  | Some _map =>
      (* check if there is anything to be done *)
      if (_cur_size _map =? 0)%nat then (HASHMAP_OK, data)
      else iterate_loop _map f check_status (_max_size _map) 0 data
  | None => (HASHMAP_ERR, data)
  end.

Definition hashmap_iterate {D : Type} (map : hashmap_ptr)
    (f : hashmap_fun D) (data : D) : Z * D :=
  hashmap_iterate_impl map f data false.

Definition hashmap_iterate_check_ok_status {D : Type} (map : hashmap_ptr)
    (f : hashmap_fun D) (data : D) : Z * D :=
  hashmap_iterate_impl map f data true.

End Hashmap.

Arguments key_ptr : clear implicits.
Arguments value_ptr : clear implicits.
Arguments hashmap_key_compare : clear implicits.
Arguments hashmap_key_hash : clear implicits.
Arguments hashmap_fun : clear implicits.
Arguments hashmap_bucket : clear implicits.
Arguments hashmap_map : clear implicits.
Arguments hashmap_ptr : clear implicits.
Arguments outcome : clear implicits.

(** * Vocabulary of the properties *)

(** ** Probing *)

(** The first index satisfying [P] among the [n] slots probed from [c],
    each probe moving to the next slot modulo [max]. *)
Fixpoint probe_first (max : nat) (P : nat → bool) (n c : nat) : option nat :=
  match n with
  | O => None
  | S n' => if P c then Some c else probe_first max P n' ((c + 1) mod max)
  end.

(** Every allocation request succeeds. *)
Definition all_succeed (h : heap) : Prop := ∀ n, h n = true.

Section Vocabulary.

Context {any_key_t any_value_t : Type}.
Variable as_chars : any_key_t → string.

Local Abbreviation key_ptr := (key_ptr any_key_t).
Local Abbreviation value_ptr := (value_ptr any_value_t).
Local Abbreviation hashmap_bucket := (hashmap_bucket any_key_t any_value_t).
Local Abbreviation hashmap_map := (hashmap_map any_key_t any_value_t).
Local Abbreviation hashmap_ptr := (hashmap_ptr any_key_t any_value_t).
Local Abbreviation outcome := (outcome any_key_t any_value_t).

Implicit Types (map m : hashmap_map) (key k : key_ptr) (value v : value_ptr).
Implicit Types (h : heap) (b : hashmap_bucket).

(** The slot can take [key]: it is unused, or used by an equal key. *)
Definition usable m k (i : nat) : bool :=
  negb (_in_use (bucket_at m i))
  || ((_compare m (_key (bucket_at m i)) k =? 0)%Z && _in_use (bucket_at m i)).

(** The slot holds [key]: it is used by an equal key. *)
Definition holds m k (i : nat) : bool :=
  (_compare m (_key (bucket_at m i)) k =? 0)%Z && _in_use (bucket_at m i).

(** The bucket keys the loop of [hashmap_find] passes to the comparator as
    its first argument, in order: the key of each slot probed, up to and
    including the slot where the loop stops. *)
Fixpoint seek_probes m k (n cur_index : nat) : list key_ptr :=
  match n with
  | O => []
  | S n' =>
      let b := bucket_at m cur_index in
      _key b
      :: (if (_compare m (_key b) k =? 0)%Z && _in_use b then []
          else seek_probes m k n' ((cur_index + 1) mod _max_size m))
  end.

(** The same for a call of [hashmap_find]: none on an empty table. *)
Definition find_probes m k : list key_ptr :=
  if (_cur_size m =? 0)%nat then []
  else seek_probes m k (_max_size m) (best_index m k).

(** [strcmp] on two key pointers, as the default comparator calls it: it
    has no defined result when one of them is [NULL]. *)
Definition strcmp_keys (key1 key2 : key_ptr) : option Z :=
  match key1, key2 with
  | Some k1, Some k2 => Some (strcmp (as_chars k1) (as_chars k2))
  | _, _ => None
  end.

(** The loop of [hashmap_find] on a table with the default comparator,
    keeping track of defined behaviour: [None] as soon as a call of
    [strcmp] has none. *)
Fixpoint find_seek_defined m k (n cur_index : nat) : option Z :=
  match n with
  | O => Some HASHMAP_NOT_FOUND
  | S n' =>
      let b := bucket_at m cur_index in
      match strcmp_keys (_key b) k with
      | None => None
      | Some c =>
          if (c =? 0)%Z && _in_use b then Some (Z.of_nat cur_index)
          else find_seek_defined m k n' ((cur_index + 1) mod _max_size m)
      end
  end.

Definition hashmap_find_defined m k : option Z :=
  if (_cur_size m =? 0)%nat then Some HASHMAP_EMPTY
  else find_seek_defined m k (_max_size m) (best_index m k).

(** The bucket array has [_max_size] slots, and there is at least one. *)
Definition shape m : Prop :=
  length (_buckets m) = _max_size m ∧ 0 < _max_size m.

(** The occupied buckets of an array, in slot-index order. *)
Definition live (bs : list hashmap_bucket) : list hashmap_bucket :=
  filter (λ b, Is_true (_in_use b)) bs.

Definition pair_of b : key_ptr * value_ptr := (_key b, _value b).

Definition occupied m : nat := length (live (_buckets m)).
Definition occupied_pairs m : list (key_ptr * value_ptr) :=
  pair_of <$> live (_buckets m).
Definition occupied_keys m : list key_ptr := _key <$> live (_buckets m).
Definition occupied_values m : list value_ptr := _value <$> live (_buckets m).

(** The counters are consistent with the bucket array.  [_cur_size] is an
    upper bound of the number of occupied slots only: [hashmap_put] counts
    an overwrite as a new entry. *)
Definition count_ok m : Prop :=
  shape m ∧ occupied m ≤ _cur_size m ∧ _cur_size m ≤ _max_size m.

(** The occupied slots hold exactly the pairs [kvs], in some order, and
    [_cur_size] counts them. *)
Definition stores m (kvs : list (key_ptr * value_ptr)) : Prop :=
  shape m ∧ occupied_pairs m ≡ₚ kvs ∧ _cur_size m = length kvs.

(** [m'] still uses the strategies of [m]. *)
Definition same_strategies m m' : Prop :=
  _compare m' = _compare m ∧ _hash m' = _hash m.

(** A call to [hashmap_put] keeps the table property [I]. *)
Definition put_keeps (I : hashmap_map → Prop)
    (put : heap → hashmap_ptr → key_ptr → value_ptr → outcome) : Prop :=
  ∀ h m k v st mp h',
    I m → put h (Some m) k v = Some (st, mp, h') → ∃ m', mp = Some m' ∧ I m'.

(** The tables a client can hold: made by [hashmap_new], then changed by
    the mutating entry points only. *)
Inductive reachable : hashmap_map → Prop :=
  | reach_new h max_size compare_fun hash_fun m h' :
      hashmap_new as_chars h max_size compare_fun hash_fun = (Some m, h') →
      reachable m
  | reach_put fuel h m k v st m' h' :
      reachable m →
      hashmap_put fuel h (Some m) k v = Some (st, Some m', h') →
      reachable m'
  | reach_remove m k st m' out :
      reachable m →
      hashmap_remove (Some m) k = (st, Some m', out) →
      reachable m'
  | reach_keys h m st m' out h' :
      reachable m →
      hashmap_keys h (Some m) = (st, Some m', out, h') →
      reachable m'.

(** A client putting the pairs of a list one after the other, recording
    every status. *)
Fixpoint put_list (fuel : nat) (h : heap) (map : hashmap_ptr)
    (kvs : list (key_ptr * value_ptr)) : option (list Z * hashmap_ptr * heap) :=
  match kvs with
  | [] => Some ([], map, h)
  | (k, v) :: kvs =>
      match hashmap_put fuel h map k v with
      | None => None
      | Some (st, map, h) =>
          match put_list fuel h map kvs with
          | None => None
          | Some (sts, map, h) => Some (st :: sts, map, h)
          end
      end
  end.

(** The keys of a list are pairwise distinct for the comparator, and each
    equals itself. *)
Definition pairwise_distinct (cmp : hashmap_key_compare any_key_t)
    (ks : list key_ptr) : Prop :=
  ∀ i j ki kj, ks !! i = Some ki → ks !! j = Some kj →
    cmp ki kj = 0%Z ↔ i = j.

(** The same, for keys taken as a collection. *)
Definition distinct_keys (cmp : hashmap_key_compare any_key_t)
    (ks : list key_ptr) : Prop :=
  NoDup ks ∧ ∀ k k', k ∈ ks → k' ∈ ks → cmp k k' = 0%Z ↔ k = k'.

(** "Equal" for the comparator is symmetric and transitive. *)
Definition equality_like (cmp : hashmap_key_compare any_key_t) : Prop :=
  (∀ k1 k2, cmp k1 k2 = 0%Z → cmp k2 k1 = 0%Z)
  ∧ (∀ k1 k2 k3, cmp k1 k2 = 0%Z → cmp k2 k3 = 0%Z → cmp k1 k3 = 0%Z).

(** Calling [f] once on each value of a list, in order, whatever it
    returns. *)
Definition visit_all {D : Type} (f : hashmap_fun any_value_t D)
    (vs : list value_ptr) (data : D) : D :=
  foldl (λ d v, (f d v).2) data vs.

(** Calling [f] on the values of a list in order, halting at the first
    status different from [HASHMAP_OK], which is the result. *)
Fixpoint visit_until_error {D : Type} (f : hashmap_fun any_value_t D)
    (vs : list value_ptr) (data : D) : Z * D :=
  match vs with
  | [] => (HASHMAP_OK, data)
  | v :: vs =>
      let '(status, data) := f data v in
      if (status =? HASHMAP_OK)%Z then visit_until_error f vs data
      else (status, data)
  end.

End Vocabulary.

Arguments reachable {any_key_t any_value_t} as_chars _.

(** Status of a call, when it returns. *)
Definition status_of {K V : Type} (o : outcome K V) : option Z :=
  (λ r, r.1.1) <$> o.

(** ** Concrete tables

    String keys (the default strategies, a key being its own characters)
    and integer values. *)
Module Demo.

Definition plenty : heap := λ _, true.
Definition exhausted : heap := λ _, false.

Definition table : Type := hashmap_map string Z.

(** [hashmap_new(max_size, NULL, NULL)] with memory available. *)
Definition new (max_size : nat) : hashmap_ptr string Z :=
  (hashmap_new id plenty max_size None None).1.

(** The table as [new max_size] returns it. *)
Definition fresh (max_size : nat) : table :=
  {| _buckets := replicate max_size zero_bucket;
     _keys := None;
     _compare := hashmap_key_compare_str id;
     _hash := hashmap_key_hash_str id;
     _max_size := max_size;
     _cur_size := 0;
     _changed := true |}.

(** [hashmap_put(map, key, &value)] with memory available; the table
    afterwards. *)
Definition put (map : hashmap_ptr string Z) (key : string) (value : Z)
    : hashmap_ptr string Z :=
  match hashmap_put 3 plenty map (Some key) (Some value) with
  | Some (_, map, _) => map
  | None => None
  end.

(** [hashmap_remove(map, key, NULL)]; the table afterwards. *)
Definition remove (map : hashmap_ptr string Z) (key : string)
    : hashmap_ptr string Z :=
  (hashmap_remove map (Some key)).1.2.

(** A view of the bucket array: key, value and flag of each slot. *)
Definition slots (map : hashmap_ptr string Z)
    : list (option string * option Z * bool) :=
  match map with
  | Some m => (λ b, (_key b, _value b, _in_use b)) <$> _buckets m
  | None => []
  end.

Definition cur_size (map : hashmap_ptr string Z) : nat :=
  from_option _cur_size 0 map.

(** Key and value of the occupied slots, in slot-index order. *)
Definition live_slots (map : hashmap_ptr string Z)
    : list (option string * option Z) :=
  from_option occupied_pairs [] map.

(** [hashmap_keys(map, &keys, &size)] with memory available: the status,
    the outputs and the table afterwards. *)
Definition keys (map : hashmap_ptr string Z)
    : Z * option (list (cell (option string)) * nat) * hashmap_ptr string Z :=
  let '(status, map, out, _) := hashmap_keys plenty map in
  (status, out, map).

(** [fresh 2] after [put "a" 1]: the hash of ["a"] is even. *)
Definition one : table := fill_bucket (fresh 2) 0 (Some "a"%string) (Some 1%Z).

(** [one] after [put "e" 2]: the hash of ["e"] is even too, slot 0 is
    taken, the pair goes to slot 1. *)
Definition two : table := fill_bucket one 1 (Some "e"%string) (Some 2%Z).

(** [two] after [remove "a"]: slot 0 keeps the key ["a"] with its flag
    cleared, so that no slot of the table has a [NULL] key. *)
Definition stale : table := clear_bucket two 0.

(** A full table of one slot. *)
Definition full : table := fill_bucket (fresh 1) 0 (Some "a"%string) (Some 1%Z).

(** Three pairs with different keys. *)
Definition abc : list (option string * option Z) :=
  [(Some "a"%string, Some 1%Z); (Some "b"%string, Some 2%Z);
   (Some "c"%string, Some 3%Z)].

(** Keys that point to one of three words, with the default strategies:
    [hashmap_new(2, NULL, NULL)], then [put "a" 1] (slot 0) and [put "e" 2]
    (slot 1); then [remove "a"]. *)
Inductive word : Set := word_a | word_b | word_e.

Definition spell (w : word) : string :=
  match w with
  | word_a => "a"%string
  | word_b => "b"%string
  | word_e => "e"%string
  end.

Definition words0 : hashmap_map word Z :=
  {| _buckets := replicate 2 zero_bucket;
     _keys := None;
     _compare := hashmap_key_compare_str spell;
     _hash := hashmap_key_hash_str spell;
     _max_size := 2;
     _cur_size := 0;
     _changed := true |}.

Definition words2 : hashmap_map word Z :=
  fill_bucket (fill_bucket words0 0 (Some word_a) (Some 1%Z))
    1 (Some word_e) (Some 2%Z).

Definition words1 : hashmap_map word Z := clear_bucket words2 0.

(** A callback that records the values it is given and returns an error
    status. *)
Definition log : hashmap_fun Z (list (option Z)) :=
  λ data value, (HASHMAP_ERR, data ++ [value]).

End Demo.

(** Closes [None ∉ l] for a list of keys that is written out. *)
Ltac no_null_key :=
  let H := fresh in
  intros H;
  repeat (apply elem_of_cons in H as [H|H]; [discriminate H|]);
  by apply elem_of_nil in H.

(** * Properties *)

(** ** Probing *)

Lemma probe_first_sat max P n c i :
  probe_first max P n c = Some i → P i = true.
Proof.
  revert c; induction n as [|n IH]; intros c; simpl; [done|].
  destruct (P c) eqn:E; [by intros [= <-]|apply IH].
Qed.

Lemma probe_first_lt max P n c i :
  c < max → probe_first max P n c = Some i → i < max.
Proof.
  revert c; induction n as [|n IH]; intros c Hc; simpl; [done|].
  destruct (P c); [by intros [= <-]|].
  apply IH, Nat.mod_upper_bound; lia.
Qed.

(** A predicate [Q] that holds at the first [P]-slot and nowhere that [P]
    does not hold has the same first slot. *)
Lemma probe_first_transfer max P Q n c i :
  probe_first max P n c = Some i →
  Q i = true →
  (∀ x, x ≠ i → Q x = true → P x = true) →
  probe_first max Q n c = Some i.
Proof.
  intros HP HQi HQ. revert c HP; induction n as [|n IH]; intros c; simpl; [done|].
  destruct (P c) eqn:EP.
  - intros [= ->]. by rewrite HQi.
  - intros HP. destruct (Q c) eqn:EQ; [|by apply IH].
    destruct (decide (c = i)) as [->|Hne].
    + apply probe_first_sat in HP. congruence.
    + apply HQ in EQ; [congruence|done].
Qed.

Lemma probe_first_none max P n c :
  (∀ x, P x = false) → probe_first max P n c = None.
Proof.
  intros HP. revert c; induction n as [|n IH]; intros c; simpl; [done|].
  by rewrite HP.
Qed.

Lemma probe_first_ext max P Q n c :
  (∀ x, P x = Q x) → probe_first max P n c = probe_first max Q n c.
Proof.
  intros HPQ. revert c; induction n as [|n IH]; intros c; simpl; [done|].
  by rewrite HPQ, IH.
Qed.

Lemma probe_first_none_inv max P n c :
  c < max → probe_first max P n c = None →
  ∀ j, j < n → P ((c + j) mod max) = false.
Proof.
  revert c; induction n as [|n IH]; intros c Hc; simpl; [lia|].
  destruct (P c) eqn:EP; [done|]. intros HN j Hj.
  destruct j as [|j].
  - by rewrite Nat.add_0_r, Nat.mod_small.
  - assert (Hc' : (c + 1) mod max < max) by (apply Nat.mod_upper_bound; lia).
    specialize (IH _ Hc' HN j ltac:(lia)).
    rewrite Nat.Div0.add_mod_idemp_l in IH.
    by replace (c + S j) with (c + 1 + j) by lia.
Qed.

(** [max] probes visit every slot: the scan only fails when no slot
    satisfies [P]. *)
Lemma probe_first_complete max P c x :
  c < max → x < max → P x = true →
  ∃ i, probe_first max P max c = Some i.
Proof.
  intros Hc Hx HPx.
  destruct (probe_first max P max c) as [i|] eqn:E; [by eexists|].
  exfalso.
  destruct (decide (c ≤ x)) as [Hle|Hgt].
  - pose proof (probe_first_none_inv _ _ _ _ Hc E (x - c) ltac:(lia)) as HN.
    replace (c + (x - c)) with x in HN by lia.
    rewrite Nat.mod_small in HN by done. congruence.
  - pose proof (probe_first_none_inv _ _ _ _ Hc E (x + max - c) ltac:(lia)) as HN.
    replace (c + (x + max - c)) with (x + 1 * max) in HN by lia.
    rewrite Nat.Div0.mod_add, Nat.mod_small in HN by done. congruence.
Qed.

Section Properties.

Context {any_key_t any_value_t : Type}.

Local Abbreviation key_ptr := (key_ptr any_key_t).
Local Abbreviation value_ptr := (value_ptr any_value_t).
Local Abbreviation hashmap_bucket := (hashmap_bucket any_key_t any_value_t).
Local Abbreviation hashmap_map := (hashmap_map any_key_t any_value_t).
Local Abbreviation hashmap_ptr := (hashmap_ptr any_key_t any_value_t).
Local Abbreviation outcome := (outcome any_key_t any_value_t).

Implicit Types (map m : hashmap_map) (key k : key_ptr) (value v : value_ptr).
Implicit Types (h : heap) (b : hashmap_bucket) (bs : list hashmap_bucket).

#[local] Arguments hashmap_hash : simpl never.
#[local] Arguments hashmap_find : simpl never.
#[local] Arguments hashmap_rehash_with : simpl never.
#[local] Arguments hashmap_put : simpl never.
#[local] Arguments best_index : simpl never.
#[local] Arguments bucket_at : simpl never.

(** ** The two scans as first-match searches *)

Lemma hash_seek_probe m k n c :
  hash_seek m k n c
  = from_option Z.of_nat HASHMAP_FULL
      (probe_first (_max_size m) (usable m k) n c).
Proof.
  revert c; induction n as [|n IH]; intros c; simpl; [done|].
  unfold usable at 1.
  destruct (_in_use (bucket_at m c)); simpl; [|done].
  rewrite andb_true_r.
  destruct (_compare m (_key (bucket_at m c)) k =? 0)%Z; simpl; [done|].
  apply IH.
Qed.

Lemma find_seek_probe m k n c :
  find_seek m k n c
  = from_option Z.of_nat HASHMAP_NOT_FOUND
      (probe_first (_max_size m) (holds m k) n c).
Proof.
  revert c; induction n as [|n IH]; intros c; simpl; [done|].
  unfold holds at 1.
  destruct (_ && _); simpl; [done|apply IH].
Qed.

Lemma holds_usable m k i : holds m k i = true → usable m k i = true.
Proof. unfold holds, usable. intros ->. apply orb_true_r. Qed.

Lemma holds_in_use m k i : holds m k i = true → _in_use (bucket_at m i) = true.
Proof. unfold holds. by intros [_ ?]%andb_true_iff. Qed.

Lemma holds_compare m k i :
  holds m k i = true → _compare m (_key (bucket_at m i)) k = 0%Z.
Proof. unfold holds. intros [?%Z.eqb_eq _]%andb_true_iff. done. Qed.

Lemma in_use_lt m i : _in_use (bucket_at m i) = true → i < length (_buckets m).
Proof.
  unfold bucket_at. intros Hu. apply lookup_lt_is_Some.
  destruct (_buckets m !! i); [by eexists|done].
Qed.

Lemma best_index_lt m k : 0 < _max_size m → best_index m k < _max_size m.
Proof.
  intros Hpos. unfold best_index.
  pose proof (Z.mod_pos_bound (_hash m k) (Z.of_nat (_max_size m))
                ltac:(lia)). lia.
Qed.

(** ** Reading buckets after a write *)

Lemma bucket_at_fill_eq m i k v :
  i < length (_buckets m) →
  bucket_at (fill_bucket m i k v) i
  = {| _key := k; _value := v; _in_use := true |}.
Proof.
  intros Hi. unfold bucket_at; simpl. by rewrite list_lookup_insert_eq.
Qed.

Lemma bucket_at_fill_ne m i k v x :
  x ≠ i → bucket_at (fill_bucket m i k v) x = bucket_at m x.
Proof.
  intros Hne. unfold bucket_at; simpl. by rewrite list_lookup_insert_ne.
Qed.

Lemma bucket_at_clear_eq m i :
  i < length (_buckets m) →
  bucket_at (clear_bucket m i) i
  = {| _key := _key (bucket_at m i); _value := _value (bucket_at m i);
       _in_use := false |}.
Proof.
  intros Hi. unfold bucket_at at 1; simpl. by rewrite list_lookup_insert_eq.
Qed.

Lemma bucket_at_clear_ne m i x :
  x ≠ i → bucket_at (clear_bucket m i) x = bucket_at m x.
Proof.
  intros Hne. unfold bucket_at at 1; simpl. by rewrite list_lookup_insert_ne.
Qed.

(** ** What [hashmap_hash] and [hashmap_find] return *)

Lemma hashmap_hash_cases m k :
  hashmap_hash (Some m) k = HASHMAP_FULL
  ∨ ∃ i, hashmap_hash (Some m) k = Z.of_nat i
       ∧ _cur_size m ≠ _max_size m
       ∧ probe_first (_max_size m) (usable m k) (_max_size m) (best_index m k)
         = Some i.
Proof.
  unfold hashmap_hash. destruct (_cur_size m =? _max_size m) eqn:E; [by left|].
  apply Nat.eqb_neq in E. rewrite hash_seek_probe.
  destruct (probe_first _ _ _ _) as [i|]; simpl; [right; by exists i|by left].
Qed.

Lemma hashmap_hash_index m k :
  hashmap_hash (Some m) k ≠ HASHMAP_FULL →
  ∃ i, hashmap_hash (Some m) k = Z.of_nat i
     ∧ _cur_size m ≠ _max_size m
     ∧ probe_first (_max_size m) (usable m k) (_max_size m) (best_index m k)
       = Some i.
Proof. intros Hne. by destruct (hashmap_hash_cases m k). Qed.

Lemma hashmap_find_cases m k :
  (hashmap_find (Some m) k = HASHMAP_EMPTY ∧ _cur_size m = 0)
  ∨ (hashmap_find (Some m) k = HASHMAP_NOT_FOUND ∧ _cur_size m ≠ 0
     ∧ probe_first (_max_size m) (holds m k) (_max_size m) (best_index m k)
       = None)
  ∨ ∃ i, hashmap_find (Some m) k = Z.of_nat i ∧ _cur_size m ≠ 0
       ∧ probe_first (_max_size m) (holds m k) (_max_size m) (best_index m k)
         = Some i.
Proof.
  unfold hashmap_find. destruct (_cur_size m =? 0) eqn:E.
  - apply Nat.eqb_eq in E. by left.
  - apply Nat.eqb_neq in E. right. rewrite find_seek_probe.
    destruct (probe_first _ _ _ _) as [i|]; simpl; [right; by exists i|by left].
Qed.

(** A successful lookup yields a slot holding the key. *)
Lemma hashmap_find_index m k :
  (0 ≤ hashmap_find (Some m) k)%Z →
  ∃ i, hashmap_find (Some m) k = Z.of_nat i ∧ _cur_size m ≠ 0
     ∧ holds m k i = true.
Proof.
  intros Hge.
  destruct (hashmap_find_cases m k) as [[E _]|[(E & _)|(i & E & Hc & Hp)]].
  - rewrite E in Hge. by compute in Hge.
  - rewrite E in Hge. by compute in Hge.
  - exists i. split_and!; [done..|]. by eapply probe_first_sat.
Qed.

(** ** Invariants of [hashmap_put] and [hashmap_rehash] *)

Lemma hashmap_put_S fuel h m k v :
  hashmap_put (S fuel) h (Some m) k v
  = if (hashmap_hash (Some m) k =? HASHMAP_FULL)%Z then
      match hashmap_rehash_with (hashmap_put fuel) h (Some m) with
      | None => None
      | Some (status, map, h) =>
          if (status =? HASHMAP_OK)%Z then hashmap_put fuel h map k v
          else Some (HASHMAP_FULL, map, h)
      end
    else Some (HASHMAP_OK,
               Some (fill_bucket m (Z.to_nat (hashmap_hash (Some m) k)) k v),
               h).
Proof. reflexivity. Qed.

Section PutInvariant.

Variable I : hashmap_map → Prop.

Hypothesis I_fill : ∀ m k v,
  I m → hashmap_hash (Some m) k ≠ HASHMAP_FULL →
  I (fill_bucket m (Z.to_nat (hashmap_hash (Some m) k)) k v).

Hypothesis I_doubled : ∀ m, I m → I (doubled m).

Lemma rehash_loop_keeps put old n i h m st mp h' :
  put_keeps I put → I m →
  rehash_loop put old n i h (Some m) = Some (st, mp, h') →
  ∃ m', mp = Some m' ∧ I m'.
Proof.
  intros Hput. revert i h m.
  induction n as [|n IH]; intros i h m Hm; simpl.
  - intros [= <- <- <-]. by exists m.
  - destruct (_in_use _); [|by apply IH].
    destruct (put h (Some m) _ _) as [[[st1 mp1] h1]|] eqn:E; simpl; [|done].
    destruct (Hput _ _ _ _ _ _ _ Hm E) as (m1 & -> & Hm1).
    destruct (negb _); [|by apply IH].
    intros [= <- <- <-]. by exists m1.
Qed.

Lemma rehash_with_keeps put h m st mp h' :
  put_keeps I put → I m →
  hashmap_rehash_with put h (Some m) = Some (st, mp, h') →
  ∃ m', mp = Some m' ∧ I m'.
Proof.
  intros Hput Hm. unfold hashmap_rehash_with.
  destruct (alloc h) as [ok h1]. destruct ok; simpl.
  - apply rehash_loop_keeps; auto.
  - intros [= <- <- <-]. by exists m.
Qed.

Lemma hashmap_put_keeps fuel : put_keeps I (hashmap_put fuel).
Proof.
  induction fuel as [|fuel IH]; intros h m k v st mp h' Hm; [done|].
  rewrite hashmap_put_S.
  destruct (hashmap_hash (Some m) k =? HASHMAP_FULL)%Z eqn:E.
  - destruct (hashmap_rehash_with (hashmap_put fuel) h (Some m)) as [[[st1 mp1] h1]|] eqn:ER; simpl; [|done].
    destruct (rehash_with_keeps _ _ _ _ _ _ IH Hm ER) as (m1 & -> & Hm1).
    destruct (st1 =? HASHMAP_OK)%Z.
    + by apply IH.
    + intros [= <- <- <-]. by exists m1.
  - apply Z.eqb_neq in E. intros [= <- <- <-]. eexists; split; [done|].
    by apply I_fill.
Qed.

(** A successful [hashmap_put] ends by filling the slot chosen by
    [hashmap_hash] in a table that has the property. *)
Lemma hashmap_put_ok_fill fuel h m k v mp h' :
  I m → hashmap_put fuel h (Some m) k v = Some (HASHMAP_OK, mp, h') →
  ∃ m0, I m0 ∧ hashmap_hash (Some m0) k ≠ HASHMAP_FULL
      ∧ mp = Some (fill_bucket m0 (Z.to_nat (hashmap_hash (Some m0) k)) k v).
Proof.
  revert h m. induction fuel as [|fuel IH]; intros h m Hm; [done|].
  rewrite hashmap_put_S.
  destruct (hashmap_hash (Some m) k =? HASHMAP_FULL)%Z eqn:E.
  - destruct (hashmap_rehash_with (hashmap_put fuel) h (Some m)) as [[[st1 mp1] h1]|] eqn:ER; simpl; [|done].
    destruct (rehash_with_keeps _ _ _ _ _ _ (hashmap_put_keeps fuel) Hm ER)
      as (m1 & -> & Hm1).
    destruct (st1 =? HASHMAP_OK)%Z; [by apply IH|done].
  - apply Z.eqb_neq in E. intros [= <- <-]. by exists m.
Qed.

End PutInvariant.

(** ** Shape and strategies are kept *)

Lemma shape_fill m i k v : shape m → shape (fill_bucket m i k v).
Proof. intros [Hl Hp]. split; simpl; [by rewrite length_insert|done]. Qed.

Lemma shape_clear m i : shape m → shape (clear_bucket m i).
Proof. intros [Hl Hp]. split; simpl; [by rewrite length_insert|done]. Qed.

Lemma shape_doubled m : shape m → shape (doubled m).
Proof. intros [Hl Hp]. split; simpl; [by rewrite length_replicate|lia]. Qed.

Lemma hashmap_put_shape fuel (m0 : hashmap_map) :
  put_keeps (λ m, shape m ∧ same_strategies m0 m) (hashmap_put fuel).
Proof.
  apply hashmap_put_keeps.
  - intros m k v [Hs Hst] _. split; [by apply shape_fill|done].
  - intros m [Hs Hst]. split; [by apply shape_doubled|done].
Qed.

(** ** Lookup after a write *)

(** The slot [hashmap_hash] chooses is the one [hashmap_find] reaches
    first once it is filled with the key. *)
Lemma get_after_fill m k v :
  shape m → _compare m k k = 0%Z →
  hashmap_hash (Some m) k ≠ HASHMAP_FULL →
  hashmap_get
    (Some (fill_bucket m (Z.to_nat (hashmap_hash (Some m) k)) k v)) k
  = (HASHMAP_OK, Some v).
Proof.
  intros [Hlen Hpos] Hrefl Hne.
  destruct (hashmap_hash_index m k Hne) as (i & -> & Hcur & Hp).
  rewrite Nat2Z.id.
  assert (Hi : i < length (_buckets m)).
  { rewrite Hlen. eapply probe_first_lt; [|done]. by apply best_index_lt. }
  set (m' := fill_bucket m i k v).
  assert (Hf : hashmap_find (Some m') k = Z.of_nat i).
  { unfold hashmap_find. simpl. rewrite find_seek_probe. simpl.
    change (best_index m' k) with (best_index m k).
    erewrite probe_first_transfer; [done|exact Hp|..].
    - unfold holds, m'. rewrite bucket_at_fill_eq by done. simpl.
      rewrite Hrefl. done.
    - intros x Hx Hh. apply holds_usable.
      unfold holds in *. unfold m' in Hh.
      by rewrite bucket_at_fill_ne in Hh. }
  unfold hashmap_get. rewrite Hf.
  destruct (Z.ltb_spec (Z.of_nat i) 0); [lia|].
  rewrite Nat2Z.id. unfold m'. by rewrite bucket_at_fill_eq.
Qed.

(** C5 (round trip): on a table with its [_max_size] buckets and a
    comparator for which the key equals itself, a [hashmap_put] that returns
    [HASHMAP_OK] is followed by a [hashmap_get] of the same key that returns
    [HASHMAP_OK] and the value just put -- whether or not the put had to
    rehash. *)
Theorem put_get_roundtrip fuel h m k v mp h' :
  shape m → _compare m k k = 0%Z →
  hashmap_put fuel h (Some m) k v = Some (HASHMAP_OK, mp, h') →
  hashmap_get mp k = (HASHMAP_OK, Some v).
Proof.
  intros Hs Hrefl Hput.
  destruct (hashmap_put_ok_fill (λ m', shape m' ∧ same_strategies m m')
              ltac:(intros ??? [??] _; split; [by apply shape_fill|done])
              ltac:(intros ? [??]; split; [by apply shape_doubled|done])
              fuel h m k v mp h' ltac:(by split) Hput)
    as (m0 & [Hs0 [Hc0 _]] & Hne & ->).
  apply get_after_fill; [done| |done]. by rewrite Hc0.
Qed.

(** ** Allocation failure inside [hashmap_put] *)

(** C4 (as amended): when the table is full ([_cur_size = _max_size]) and
    the bucket array of twice the size cannot be allocated,
    [hashmap_rehash] returns [HASHMAP_ERR] and [hashmap_put] returns
    [HASHMAP_FULL]; both leave the table as it was. *)
Theorem put_full_alloc_failure fuel h m k v :
  _cur_size m = _max_size m → h 0 = false →
  hashmap_rehash (S fuel) h (Some m) = Some (HASHMAP_ERR, Some m, (alloc h).2)
  ∧ hashmap_put (S fuel) h (Some m) k v
    = Some (HASHMAP_FULL, Some m, (alloc h).2).
Proof.
  intros Hfull Hfail.
  assert (HR : ∀ put, hashmap_rehash_with put h (Some m)
                      = Some (HASHMAP_ERR, Some m, (alloc h).2)).
  { intros put. unfold hashmap_rehash_with, alloc. by rewrite Hfail. }
  split; [apply HR|].
  rewrite hashmap_put_S. unfold hashmap_hash at 1.
  rewrite Hfull, Nat.eqb_refl. simpl. by rewrite HR.
Qed.

(** ** Queries on a table whose live count is zero *)

(** The guard of [hashmap_find]: when [_cur_size] is zero, [hashmap_get]
    and [hashmap_remove] return [HASHMAP_EMPTY] (not [HASHMAP_NOT_FOUND])
    for every key, write nothing to the output parameter and leave the
    table as it is. *)
Theorem empty_table_queries m k :
  _cur_size m = 0 →
  hashmap_get (Some m) k = (HASHMAP_EMPTY, None)
  ∧ hashmap_remove (Some m) k = (HASHMAP_EMPTY, Some m, None)
  ∧ HASHMAP_EMPTY ≠ HASHMAP_NOT_FOUND.
Proof.
  intros Hz. unfold hashmap_get, hashmap_remove, hashmap_find.
  rewrite Hz. simpl. done.
Qed.

(** C10: when [_cur_size] is zero, both iterate entry points return
    [HASHMAP_OK] and the state the callback works on is untouched, whatever
    the callback: it is never invoked.  On the same table [hashmap_get],
    [hashmap_remove] and [hashmap_keys] return [HASHMAP_EMPTY]. *)
Theorem iterate_empty_table {D : Type} m (f : hashmap_fun any_value_t D)
    (data : D) k h :
  _cur_size m = 0 →
  hashmap_iterate (Some m) f data = (HASHMAP_OK, data)
  ∧ hashmap_iterate_check_ok_status (Some m) f data = (HASHMAP_OK, data)
  ∧ (hashmap_get (Some m) k).1 = HASHMAP_EMPTY
  ∧ (hashmap_remove (Some m) k).1.1 = HASHMAP_EMPTY
  ∧ (hashmap_keys h (Some m)).1.1.1 = HASHMAP_EMPTY
  ∧ HASHMAP_EMPTY ≠ HASHMAP_OK.
Proof.
  intros Hz.
  unfold hashmap_iterate, hashmap_iterate_check_ok_status,
    hashmap_iterate_impl, hashmap_get, hashmap_remove, hashmap_find,
    hashmap_keys.
  rewrite Hz. simpl. done.
Qed.

(** ** Removal *)

(** C3 (as amended): when [hashmap_get] finds value [v] for [k],
    [hashmap_remove] returns [HASHMAP_OK] and [v]; it clears the flag of the
    slot found and nothing else in the bucket array (key and value stay in
    the slot), decrements [_cur_size] by one and sets [_changed].  A
    [hashmap_get] of [k] afterwards returns [HASHMAP_EMPTY] when that was
    the last counted entry.  Otherwise it returns [HASHMAP_NOT_FOUND],
    provided no other occupied slot holds a key equal to [k] and the lookup
    passes no [NULL] bucket key to the comparator, that is, probes no
    never-used slot. *)
Theorem remove_then_get m k v :
  hashmap_get (Some m) k = (HASHMAP_OK, Some v) →
  let i := Z.to_nat (hashmap_find (Some m) k) in
  let m' := clear_bucket m i in
  hashmap_remove (Some m) k = (HASHMAP_OK, Some m', Some v)
  ∧ holds m k i = true
  ∧ _value (bucket_at m i) = v
  ∧ (∀ j, bucket_at m' j
          = if decide (j = i)
            then {| _key := _key (bucket_at m i); _value := v;
                    _in_use := false |}
            else bucket_at m j)
  ∧ length (_buckets m') = length (_buckets m)
  ∧ S (_cur_size m') = _cur_size m
  ∧ _max_size m' = _max_size m
  ∧ _changed m' = true
  ∧ (_cur_size m = 1 → hashmap_get (Some m') k = (HASHMAP_EMPTY, None))
  ∧ (_cur_size m ≠ 1 → (∀ j, j ≠ i → holds m k j = false) →
     None ∉ find_probes m' k →
     hashmap_get (Some m') k = (HASHMAP_NOT_FOUND, None)).
Proof.
  intros Hget i m'.
  assert (Hge : (0 ≤ hashmap_find (Some m) k)%Z).
  { unfold hashmap_get in Hget.
    destruct (Z.ltb_spec (hashmap_find (Some m) k) 0); [congruence|done]. }
  destruct (hashmap_find_index m k Hge) as (i0 & Hf & Hcur & Hh).
  assert (Hi : i = i0) by (unfold i; rewrite Hf; apply Nat2Z.id).
  clearbody i. subst i0.
  pose proof (in_use_lt _ _ (holds_in_use _ _ _ Hh)) as Hlt.
  assert (Hv : _value (bucket_at m i) = v).
  { unfold hashmap_get in Hget. rewrite Hf in Hget.
    destruct (Z.ltb_spec (Z.of_nat i) 0); [lia|].
    rewrite Nat2Z.id in Hget. congruence. }
  assert (Hb : ∀ j, bucket_at m' j
          = if decide (j = i)
            then {| _key := _key (bucket_at m i); _value := v;
                    _in_use := false |}
            else bucket_at m j).
  { intros j. destruct (decide (j = i)) as [->|Hne].
    - unfold m'. rewrite bucket_at_clear_eq by done. by rewrite Hv.
    - unfold m'. by rewrite bucket_at_clear_ne. }
  split_and!; try done.
  - unfold hashmap_remove. rewrite Hf.
    destruct (Z.ltb_spec (Z.of_nat i) 0); [lia|].
    rewrite Nat2Z.id. fold m'. rewrite (Hb i).
    by rewrite decide_True.
  - unfold m'; simpl. by rewrite length_insert.
  - unfold m'; simpl. lia.
  - intros H1. unfold hashmap_get, hashmap_find. unfold m'; simpl.
    by rewrite H1.
  - intros Hn1 Hother _. unfold hashmap_get, hashmap_find.
    replace (_cur_size m' =? 0) with false
      by (symmetry; apply Nat.eqb_neq; unfold m'; simpl; lia).
    rewrite find_seek_probe, probe_first_none; [done|].
    intros x. unfold holds. rewrite (Hb x).
    destruct (decide (x = i)) as [->|Hne]; simpl; [apply andb_false_r|].
    by apply Hother.
Qed.

(** ** Occupied slots *)

Lemma live_cons b bs :
  live (b :: bs) = if _in_use b then b :: live bs else live bs.
Proof.
  unfold live. destruct (_in_use b) eqn:E.
  - rewrite filter_cons_True; [done|]. by rewrite E.
  - rewrite filter_cons_False; [done|]. rewrite E. exact id.
Qed.

Lemma live_app bs1 bs2 : live (bs1 ++ bs2) = live bs1 ++ live bs2.
Proof. apply filter_app. Qed.

Lemma live_replicate_zero n :
  live (replicate n (@zero_bucket any_key_t any_value_t)) = [].
Proof. induction n as [|n IH]; [done|]. simpl. by rewrite live_cons. Qed.

Lemma live_split bs i b :
  bs !! i = Some b →
  live bs = live (take i bs) ++ live [b] ++ live (drop (S i) bs).
Proof.
  intros Hb. rewrite <- !live_app. f_equal. symmetry.
  by apply take_drop_middle.
Qed.

Lemma live_insert bs i b' :
  i < length bs →
  live (<[i:=b']> bs) = live (take i bs) ++ live [b'] ++ live (drop (S i) bs).
Proof.
  intros Hi. rewrite <- !live_app. f_equal. by apply insert_take_drop.
Qed.

Lemma live_single_length b : length (live [b]) = if _in_use b then 1 else 0.
Proof. rewrite live_cons. by destruct (_in_use b). Qed.

Lemma bucket_at_lookup m i :
  i < length (_buckets m) → _buckets m !! i = Some (bucket_at m i).
Proof.
  intros Hi. unfold bucket_at.
  destruct (lookup_lt_is_Some_2 _ _ Hi) as [b ->]. done.
Qed.

(** Filling a slot adds at most one occupied slot, exactly one when the
    slot was free. *)
Lemma occupied_fill m i k v :
  i < length (_buckets m) →
  occupied (fill_bucket m i k v)
  = if _in_use (bucket_at m i) then occupied m else S (occupied m).
Proof.
  intros Hi. unfold occupied; simpl.
  rewrite (live_insert _ _ _ Hi), (live_split _ _ _ (bucket_at_lookup _ _ Hi)).
  rewrite !length_app, !live_single_length. simpl.
  destruct (_in_use (bucket_at m i)); lia.
Qed.

Lemma occupied_clear m i :
  _in_use (bucket_at m i) = true →
  S (occupied (clear_bucket m i)) = occupied m.
Proof.
  intros Hu. pose proof (in_use_lt _ _ Hu) as Hi. unfold occupied; simpl.
  rewrite (live_insert _ _ _ Hi), (live_split _ _ _ (bucket_at_lookup _ _ Hi)).
  rewrite !length_app, !live_single_length. simpl. rewrite Hu. lia.
Qed.

Lemma occupied_doubled m : occupied (doubled m) = 0.
Proof. unfold occupied; simpl. by rewrite live_replicate_zero. Qed.

(** ** The counters stay consistent *)

Lemma hashmap_hash_lt m k i :
  shape m → hashmap_hash (Some m) k = Z.of_nat i → i < length (_buckets m).
Proof.
  intros [Hlen Hpos] Hh.
  destruct (hashmap_hash_cases m k) as [E|(j & E & _ & Hp)].
  - rewrite E in Hh. unfold HASHMAP_FULL in Hh. lia.
  - assert (j = i) as -> by lia.
    rewrite Hlen. eapply probe_first_lt; [|done]. by apply best_index_lt.
Qed.

Lemma count_ok_fill m k v :
  count_ok m → hashmap_hash (Some m) k ≠ HASHMAP_FULL →
  count_ok (fill_bucket m (Z.to_nat (hashmap_hash (Some m) k)) k v).
Proof.
  intros (Hs & Hocc & Hcur) Hne.
  destruct (hashmap_hash_index m k Hne) as (i & Hi & Hnf & _).
  pose proof (hashmap_hash_lt _ _ _ Hs Hi) as Hlt.
  rewrite Hi, Nat2Z.id. split_and!.
  - by apply shape_fill.
  - rewrite occupied_fill by done. simpl.
    destruct (_in_use (bucket_at m i)); lia.
  - simpl. lia.
Qed.

Lemma count_ok_doubled m : count_ok m → count_ok (doubled m).
Proof.
  intros (Hs & _ & _). split_and!; [by apply shape_doubled|..].
  - rewrite occupied_doubled. simpl. lia.
  - simpl. lia.
Qed.

Lemma count_ok_clear m i :
  count_ok m → _in_use (bucket_at m i) = true → _cur_size m ≠ 0 →
  count_ok (clear_bucket m i).
Proof.
  intros (Hs & Hocc & Hcur) Hu Hnz.
  pose proof (occupied_clear _ _ Hu). split_and!.
  - by apply shape_clear.
  - simpl. lia.
  - simpl. lia.
Qed.

Lemma hashmap_put_count_ok fuel :
  put_keeps (λ m, count_ok m) (hashmap_put fuel).
Proof.
  apply hashmap_put_keeps; [apply count_ok_fill|apply count_ok_doubled].
Qed.

Lemma hashmap_new_inv as_chars h max_size compare_fun hash_fun m h' :
  hashmap_new as_chars h max_size compare_fun hash_fun = (Some m, h') →
  m = {| _buckets := replicate (_max_size m) zero_bucket;
         _keys := None;
         _compare := default (hashmap_key_compare_str as_chars) compare_fun;
         _hash := default (hashmap_key_hash_str as_chars) hash_fun;
         _max_size := _max_size m;
         _cur_size := 0;
         _changed := true |}
  ∧ _max_size m = (if decide (max_size = 0) then HASHMAP_DEFAULT_SIZE
                   else max_size).
Proof.
  unfold hashmap_new, alloc.
  destruct (h 0); simpl; [|done]. destruct (h 1); simpl; [|done].
  intros [= <- _]. simpl. split; [done|].
  destruct max_size; done.
Qed.

Lemma hashmap_new_count_ok as_chars h max_size compare_fun hash_fun m h' :
  hashmap_new as_chars h max_size compare_fun hash_fun = (Some m, h') →
  count_ok m ∧ occupied m = 0 ∧ _cur_size m = 0.
Proof.
  intros [Hm Hmax]%hashmap_new_inv.
  assert (0 < _max_size m).
  { rewrite Hmax. unfold HASHMAP_DEFAULT_SIZE. case_decide; lia. }
  assert (Hocc : occupied m = 0).
  { unfold occupied. rewrite Hm. simpl. by rewrite live_replicate_zero. }
  assert (Hcur : _cur_size m = 0) by by rewrite Hm.
  split_and!; try done.
  split_and!; [|lia..].
  split; [|done]. rewrite Hm. simpl. by rewrite length_replicate.
Qed.

Lemma hashmap_remove_count_ok m k st m' out :
  count_ok m → hashmap_remove (Some m) k = (st, Some m', out) → count_ok m'.
Proof.
  intros Hm. unfold hashmap_remove.
  destruct (Z.ltb_spec (hashmap_find (Some m) k) 0) as [|Hge].
  - by intros [= _ <- _].
  - destruct (hashmap_find_index m k Hge) as (i & Hf & Hcur & Hh).
    rewrite Hf, Nat2Z.id. intros [= _ <- _].
    apply count_ok_clear; [done| |done]. by eapply holds_in_use.
Qed.

Lemma hashmap_keys_buckets h m st m' out h' :
  hashmap_keys h (Some m) = (st, Some m', out, h') →
  _buckets m' = _buckets m ∧ _max_size m' = _max_size m
  ∧ _cur_size m' = _cur_size m.
Proof.
  unfold hashmap_keys.
  destruct (_cur_size m =? 0); [by intros [= _ <- _ _]|].
  destruct (_changed m); [|by intros [= _ <- _ _]].
  destruct (alloc h) as [[] h1]; simpl; by intros [= _ <- _ _].
Qed.

(** Every table a client can hold has consistent counters. *)
Lemma reachable_count_ok as_chars m : reachable as_chars m → count_ok m.
Proof.
  induction 1 as [h n c hf m h' Hnew|fuel h m k v st m' h' _ IH Hput
                 |m k st m' out _ IH Hrm|h m st m' out h' _ IH Hk].
  - by apply hashmap_new_count_ok in Hnew as [? _].
  - destruct (hashmap_put_count_ok fuel _ _ _ _ _ _ _ IH Hput)
      as (m1 & [= <-] & ?). done.
  - by eapply hashmap_remove_count_ok.
  - apply hashmap_keys_buckets in Hk as (Hb & Hmax & Hcur).
    destruct IH as ([Hlen Hpos] & Hocc & Hc).
    unfold count_ok, shape, occupied. rewrite Hb, Hmax, Hcur. done.
Qed.

(** ** Iteration *)

Lemma iterate_loop_spec {D : Type} m (f : hashmap_fun any_value_t D)
    (check_status : bool) n i (data : D) :
  n + i = length (_buckets m) →
  iterate_loop m f check_status n i data
  = if check_status
    then visit_until_error f (_value <$> live (drop i (_buckets m))) data
    else (HASHMAP_OK, visit_all f (_value <$> live (drop i (_buckets m))) data).
Proof.
  revert i data. induction n as [|n IH]; intros i data Hlen.
  - rewrite drop_ge by lia. simpl. by destruct check_status.
  - assert (Hi : i < length (_buckets m)) by lia.
    rewrite (drop_S _ _ _ (bucket_at_lookup _ _ Hi)), live_cons.
    simpl. destruct (_in_use (bucket_at m i)); [|apply IH; lia].
    simpl. unfold visit_all at 1. simpl.
    destruct (f data (_value (bucket_at m i))) as [status data1]; simpl.
    rewrite IH by lia.
    destruct check_status; simpl; [|done].
    by destruct (status =? HASHMAP_OK)%Z.
Qed.

(** C9: on every table a client can hold, [hashmap_iterate] returns
    [HASHMAP_OK] after calling the callback once on the value of each
    occupied slot, in slot-index order, whatever the callback returns;
    [hashmap_iterate_check_ok_status] makes the same calls up to and
    including the first one whose status is not [HASHMAP_OK] and returns
    that status. *)
Theorem iterate_visits_occupied {D : Type} as_chars m
    (f : hashmap_fun any_value_t D) (data : D) :
  reachable as_chars m →
  hashmap_iterate (Some m) f data
  = (HASHMAP_OK, visit_all f (occupied_values m) data)
  ∧ hashmap_iterate_check_ok_status (Some m) f data
    = visit_until_error f (occupied_values m) data.
Proof.
  intros ([Hlen Hpos] & Hocc & Hcur)%reachable_count_ok.
  unfold hashmap_iterate, hashmap_iterate_check_ok_status,
    hashmap_iterate_impl, occupied_values.
  destruct (Nat.eqb_spec (_cur_size m) 0) as [Hz|Hnz].
  - assert (Hnil : live (_buckets m) = []).
    { apply length_zero_iff_nil. unfold occupied in Hocc. lia. }
    rewrite Hnil. done.
  - rewrite !iterate_loop_spec by lia. by rewrite drop_0.
Qed.

(** ** Distinct keys *)

Lemma pairwise_distinct_keys cmp (ks : list key_ptr) :
  pairwise_distinct cmp ks → distinct_keys cmp ks.
Proof.
  intros Hpw.
  assert (Hrefl : ∀ i x, ks !! i = Some x → cmp x x = 0%Z).
  { intros i x Hi. by apply (Hpw i i x x Hi Hi). }
  assert (Hinj : ∀ i j x, ks !! i = Some x → ks !! j = Some x → i = j).
  { intros i j x Hi Hj. apply (Hpw i j x x Hi Hj). by eapply Hrefl. }
  split.
  - by apply NoDup_alt.
  - intros k k' [i Hi]%list_elem_of_lookup_1 [j Hj]%list_elem_of_lookup_1.
    rewrite (Hpw i j k k' Hi Hj). split.
    + intros ->. congruence.
    + intros ->. by eapply Hinj.
Qed.

Lemma distinct_keys_perm cmp (ks ks' : list key_ptr) :
  ks ≡ₚ ks' → distinct_keys cmp ks → distinct_keys cmp ks'.
Proof.
  intros Hp [Hnd Hd]. split; [by rewrite <- Hp|].
  intros k k' Hk Hk'. apply Hd; by rewrite Hp.
Qed.

Lemma distinct_keys_app_l cmp (ks1 ks2 : list key_ptr) :
  distinct_keys cmp (ks1 ++ ks2) → distinct_keys cmp ks1.
Proof.
  intros [Hnd Hd]. split; [by apply NoDup_app in Hnd as [? _]|].
  intros k k' Hk Hk'. apply Hd; apply elem_of_app; by left.
Qed.

(** In a list of distinct keys, a key that comes later is not equal (for
    the comparator) to one that comes before. *)
Lemma distinct_keys_fresh cmp (ks1 ks2 : list key_ptr) k k' :
  distinct_keys cmp (ks1 ++ k :: ks2) → k' ∈ ks1 → cmp k' k ≠ 0%Z.
Proof.
  intros [Hnd Hd] Hk' Hz.
  apply Hd in Hz; [|apply elem_of_app; by left
                    |apply elem_of_app; right; by apply elem_of_cons; left].
  subst k'. apply NoDup_app in Hnd as (_ & Hdis & _).
  apply (Hdis k Hk'). by apply elem_of_cons; left.
Qed.

Lemma NoDup_fst_unique {A B} (l : list (A * B)) x y1 y2 :
  NoDup l.*1 → (x, y1) ∈ l → (x, y2) ∈ l → y1 = y2.
Proof.
  induction l as [|[a b] l IH]; simpl.
  - by intros _ ?%elem_of_nil.
  - intros Hnd H1 H2. apply NoDup_cons in Hnd as [Hnin Hnd].
    apply elem_of_cons in H1 as [H1|H1]; apply elem_of_cons in H2 as [H2|H2].
    + congruence.
    + inversion H1; subst. exfalso. apply Hnin.
      by apply (list_elem_of_fmap_2 fst) in H2.
    + inversion H2; subst. exfalso. apply Hnin.
      by apply (list_elem_of_fmap_2 fst) in H1.
    + by apply IH.
Qed.

Lemma pair_of_fst bs : (pair_of <$> bs).*1 = _key <$> bs.
Proof. induction bs as [|b bs IH]; [done|]. simpl. by f_equal. Qed.

Lemma live_elem bs b : b ∈ live bs ↔ b ∈ bs ∧ _in_use b = true.
Proof.
  unfold live. rewrite list_elem_of_filter, Is_true_true. tauto.
Qed.

Lemma bucket_at_live m i :
  _in_use (bucket_at m i) = true → bucket_at m i ∈ live (_buckets m).
Proof.
  intros Hu. apply live_elem. split; [|done].
  eapply list_elem_of_lookup_2, bucket_at_lookup. by apply in_use_lt.
Qed.

(** ** Placing a key that is not in the table *)

Lemma free_slot_exists bs :
  length (live bs) < length bs →
  ∃ x, x < length bs ∧ _in_use (default zero_bucket (bs !! x)) = false.
Proof.
  induction bs as [|b bs IH]; simpl; [lia|].
  rewrite live_cons. destruct (_in_use b) eqn:E; simpl.
  - intros Hlt. destruct IH as (x & Hx & Hu); [lia|].
    exists (S x). split; [lia|done].
  - intros _. exists 0. split; [lia|done].
Qed.

Lemma hashmap_hash_fresh m k :
  shape m → occupied m ≤ _cur_size m → _cur_size m < _max_size m →
  (∀ b, b ∈ live (_buckets m) → _compare m (_key b) k ≠ 0%Z) →
  ∃ i, hashmap_hash (Some m) k = Z.of_nat i
     ∧ i < length (_buckets m)
     ∧ _in_use (bucket_at m i) = false.
Proof.
  intros [Hlen Hpos] Hocc Hcur Hfresh.
  destruct (free_slot_exists (_buckets m)) as (x & Hx & Hfree).
  { unfold occupied in Hocc. lia. }
  assert (Hux : usable m k x = true).
  { unfold usable, bucket_at. by rewrite Hfree. }
  destruct (probe_first_complete (_max_size m) (usable m k) (best_index m k) x)
    as [i Hp]; [by apply best_index_lt|lia|done|].
  exists i.
  assert (Hi : i < length (_buckets m)).
  { rewrite Hlen. eapply probe_first_lt; [|done]. by apply best_index_lt. }
  split_and!; [|done|].
  - unfold hashmap_hash.
    destruct (Nat.eqb_spec (_cur_size m) (_max_size m)); [lia|].
    by rewrite hash_seek_probe, Hp.
  - apply probe_first_sat in Hp. unfold usable in Hp.
    destruct (_in_use (bucket_at m i)) eqn:E; [|done]. exfalso.
    simpl in Hp. rewrite andb_true_r in Hp. apply Z.eqb_eq in Hp.
    by apply (Hfresh (bucket_at m i)); [apply bucket_at_live|].
Qed.

Lemma occupied_pairs_fill_free m i k v :
  i < length (_buckets m) → _in_use (bucket_at m i) = false →
  occupied_pairs (fill_bucket m i k v) ≡ₚ (k, v) :: occupied_pairs m.
Proof.
  intros Hi Hfree. unfold occupied_pairs; simpl.
  rewrite (live_insert _ _ _ Hi), (live_split _ _ _ (bucket_at_lookup _ _ Hi)).
  rewrite !live_cons, Hfree. simpl.
  rewrite !fmap_app. simpl. by rewrite <- Permutation_middle.
Qed.

Lemma stores_occupied m kvs :
  stores m kvs → occupied m = _cur_size m.
Proof.
  intros (_ & Hp & Hc). unfold occupied.
  rewrite Hc, <- Hp. unfold occupied_pairs. by rewrite length_fmap.
Qed.

Lemma stores_live m kvs b :
  stores m kvs → b ∈ live (_buckets m) → (_key b, _value b) ∈ kvs.
Proof.
  intros (_ & Hp & _) Hb. rewrite <- Hp. unfold occupied_pairs.
  by apply (list_elem_of_fmap_2 pair_of) in Hb.
Qed.

(** Putting a key no stored key is equal to, in a table that is not full:
    no rehash, the pair is added. *)
Lemma hashmap_put_fresh fuel h m kvs k v :
  stores m kvs → length kvs < _max_size m →
  (∀ k' v', (k', v') ∈ kvs → _compare m k' k ≠ 0%Z) →
  let m' := fill_bucket m (Z.to_nat (hashmap_hash (Some m) k)) k v in
  hashmap_put (S fuel) h (Some m) k v = Some (HASHMAP_OK, Some m', h)
  ∧ stores m' (kvs ++ [(k, v)])
  ∧ _max_size m' = _max_size m
  ∧ _compare m' = _compare m.
Proof.
  intros Hst Hlt Hfresh m'.
  pose proof (stores_occupied _ _ Hst) as Hocc.
  destruct Hst as (Hs & Hp & Hc).
  destruct (hashmap_hash_fresh m k) as (i & Hi & Hil & Hfree);
    [done|lia|lia| |].
  { intros b Hb. eapply Hfresh, stores_live; [|done]. by split_and!. }
  unfold m'. rewrite hashmap_put_S, Hi, Nat2Z.id.
  replace (Z.of_nat i =? HASHMAP_FULL)%Z with false
    by (symmetry; apply Z.eqb_neq; unfold HASHMAP_FULL; lia).
  split_and!; try done.
  split_and!.
  - by apply shape_fill.
  - rewrite occupied_pairs_fill_free by done.
    rewrite Hp. apply Permutation_cons_append.
  - simpl. rewrite length_app, Hc. simpl. lia.
Qed.

(** ** Rehashing a table of distinct keys *)

Lemma rehash_loop_fresh fuel h old cmp M :
  distinct_keys cmp (_key <$> live old) → length old < M →
  ∀ n i mi,
    n + i = length old →
    stores mi (pair_of <$> live (take i old)) →
    _max_size mi = M → _compare mi = cmp →
    ∃ m', rehash_loop (hashmap_put (S fuel)) old n i h (Some mi)
          = Some (HASHMAP_OK, Some m', h)
        ∧ stores m' (pair_of <$> live old)
        ∧ _max_size m' = M ∧ _compare m' = cmp.
Proof.
  intros Hd HM. induction n as [|n IH]; intros i mi Hn Hst Hmax Hcmp.
  - simpl. exists mi. rewrite take_ge in Hst by lia. done.
  - assert (Hi : i < length old) by lia.
    destruct (lookup_lt_is_Some_2 _ _ Hi) as [b Hb].
    simpl. rewrite Hb. simpl.
    pose proof (take_S_r _ _ _ Hb) as Htake.
    destruct (_in_use b) eqn:Eb.
    + destruct (hashmap_put_fresh fuel h mi _ (_key b) (_value b) Hst)
        as (Hput & Hst' & Hmax' & Hcmp').
      { rewrite length_fmap.
        pose proof (length_filter (λ b, Is_true (_in_use b)) (take i old)).
        unfold live. rewrite length_take in *. lia. }
      { intros k' v' Hk'. rewrite Hcmp.
        rewrite (live_split _ _ _ Hb), live_cons, Eb, !fmap_app in Hd.
        simpl in Hd. eapply distinct_keys_fresh; [exact Hd|].
        apply (list_elem_of_fmap_2 fst) in Hk'.
        by rewrite pair_of_fst in Hk'. }
      rewrite Hput. simpl.
      apply IH; [lia| |congruence..].
      rewrite Htake, live_app, live_cons, Eb, fmap_app. done.
    + apply IH; [lia| |done..].
      rewrite Htake, live_app, live_cons, Eb. simpl. by rewrite app_nil_r.
Qed.

Lemma stores_doubled m : shape m → stores (doubled m) [].
Proof.
  intros Hs. split_and!; [by apply shape_doubled| |done].
  unfold occupied_pairs; simpl. by rewrite live_replicate_zero.
Qed.

Lemma hashmap_rehash_fresh fuel h m kvs :
  stores m kvs → distinct_keys (_compare m) kvs.*1 → h 0 = true →
  ∃ m', hashmap_rehash_with (hashmap_put (S fuel)) h (Some m)
        = Some (HASHMAP_OK, Some m', (alloc h).2)
      ∧ stores m' kvs
      ∧ _max_size m' = 2 * _max_size m
      ∧ _compare m' = _compare m.
Proof.
  intros (Hs & Hp & Hc) Hd Hok.
  unfold hashmap_rehash_with, alloc. rewrite Hok. simpl.
  destruct Hs as [Hlen Hpos].
  destruct (rehash_loop_fresh fuel (λ n, h (S n)) (_buckets m) (_compare m)
              (2 * _max_size m)) with (n := _max_size m) (i := 0)
              (mi := doubled m)
    as (m' & Hloop & (Hs' & Hp' & Hc') & Hmax' & Hcmp'); try done.
  - eapply distinct_keys_perm; [|exact Hd].
    rewrite <- Hp. unfold occupied_pairs. by rewrite pair_of_fst.
  - lia.
  - lia.
  - by apply stores_doubled.
  - exists m'. split_and!; try done.
    split_and!; [done|..].
    + by rewrite Hp'.
    + rewrite Hc'. exact (Permutation_length Hp).
Qed.

(** ** Looking up one of the distinct keys a table stores *)

Lemma hashmap_get_stored m kvs k v :
  stores m kvs → distinct_keys (_compare m) kvs.*1 → (k, v) ∈ kvs →
  hashmap_get (Some m) k = (HASHMAP_OK, Some v).
Proof.
  intros Hst [Hnd Hd] Hkv.
  pose proof Hst as ([Hlen Hpos] & Hp & Hc).
  assert (Hk : k ∈ kvs.*1) by by apply (list_elem_of_fmap_2 fst) in Hkv.
  (* some occupied slot holds the pair *)
  assert (Hin : (k, v) ∈ occupied_pairs m) by by rewrite Hp.
  apply list_elem_of_fmap_1 in Hin as (b & Hb & [Hbm Hbu]%live_elem).
  apply list_elem_of_lookup_1 in Hbm as [x Hx].
  assert (Hbx : bucket_at m x = b) by (unfold bucket_at; by rewrite Hx).
  assert (Hhx : holds m k x = true).
  { unfold holds. rewrite Hbx, Hbu, andb_true_r. apply Z.eqb_eq.
    inversion Hb; subst. by apply Hd. }
  (* so the scan stops at a slot holding an equal key *)
  destruct (probe_first_complete (_max_size m) (holds m k) (best_index m k) x)
    as [i Hpi]; [by apply best_index_lt| |done|].
  { rewrite <- Hlen. by eapply lookup_lt_Some. }
  pose proof (probe_first_sat _ _ _ _ _ Hpi) as Hhi.
  pose proof (stores_live _ _ _ Hst
                (bucket_at_live _ _ (holds_in_use _ _ _ Hhi))) as Hin'.
  assert (Hki : _key (bucket_at m i) = k).
  { apply Hd; [|done|by apply holds_compare].
    by apply (list_elem_of_fmap_2 fst) in Hin'. }
  rewrite Hki in Hin'.
  rewrite (NoDup_fst_unique _ _ _ _ Hnd Hkv Hin').
  unfold hashmap_get, hashmap_find.
  destruct (Nat.eqb_spec (_cur_size m) 0) as [Hz|_].
  { rewrite Hz in Hc. destruct kvs; [by apply elem_of_nil in Hkv|done]. }
  rewrite find_seek_probe, Hpi. simpl.
  destruct (Z.ltb_spec (Z.of_nat i) 0); [lia|]. by rewrite Nat2Z.id.
Qed.

(** ** Sequences of puts *)

Lemma put_list_app fuel h (mp : hashmap_ptr) l1 l2 :
  put_list fuel h mp (l1 ++ l2)
  = match put_list fuel h mp l1 with
    | None => None
    | Some (sts1, mp1, h1) =>
        match put_list fuel h1 mp1 l2 with
        | None => None
        | Some (sts2, mp2, h2) => Some (sts1 ++ sts2, mp2, h2)
        end
    end.
Proof.
  revert h mp. induction l1 as [|[k v] l1 IH]; intros h mp; simpl.
  - by destruct (put_list fuel h mp l2) as [[[??]?]|].
  - destruct (hashmap_put fuel h mp k v) as [[[st mp1] h1]|]; [|done].
    rewrite IH.
    destruct (put_list fuel h1 mp1 l1) as [[[sts1 mp2] h2]|]; [|done].
    by destruct (put_list fuel h2 mp2 l2) as [[[??]?]|].
Qed.

(** Putting distinct keys while there is room adds them all, without
    rehash. *)
Lemma put_list_fresh fuel h l : ∀ m kvs,
  stores m kvs →
  distinct_keys (_compare m) (kvs.*1 ++ l.*1) →
  length kvs + length l ≤ _max_size m →
  ∃ m', put_list (S fuel) h (Some m) l
        = Some (replicate (length l) HASHMAP_OK, Some m', h)
      ∧ stores m' (kvs ++ l)
      ∧ _max_size m' = _max_size m
      ∧ _compare m' = _compare m.
Proof.
  induction l as [|[k v] l IH]; intros m kvs Hst Hd Hlen; simpl in *.
  - exists m. by rewrite app_nil_r.
  - destruct (hashmap_put_fresh fuel h m kvs k v Hst)
      as (Hput & Hst' & Hmax' & Hcmp'); [lia| |].
    { intros k' v' Hk'. eapply distinct_keys_fresh; [exact Hd|].
      by apply (list_elem_of_fmap_2 fst) in Hk'. }
    rewrite Hput.
    destruct (IH _ _ Hst') as (m' & Hl & Hst'' & Hmax'' & Hcmp'').
    { rewrite Hcmp', fmap_app, <- app_assoc. done. }
    { rewrite length_app, Hmax'. simpl. lia. }
    exists m'. rewrite Hl. split_and!; [done| |congruence..].
    by rewrite <- app_assoc in Hst''.
Qed.

(** A rehash that succeeds has put the pairs of the occupied slots of the
    old array, in slot-index order, into the new one. *)
Lemma rehash_loop_put_list fuel old : ∀ n i h (mp mp' : hashmap_ptr) h',
  n + i = length old →
  rehash_loop (hashmap_put fuel) old n i h mp = Some (HASHMAP_OK, mp', h') →
  put_list fuel h mp (pair_of <$> live (drop i old))
  = Some (replicate (length (live (drop i old))) HASHMAP_OK, mp', h').
Proof.
  induction n as [|n IH]; intros i h mp mp' h' Hn; simpl.
  - rewrite drop_ge by lia. by intros [= <- <-].
  - assert (Hi : i < length old) by lia.
    destruct (lookup_lt_is_Some_2 _ _ Hi) as [b Hb].
    rewrite Hb, (drop_S _ _ _ Hb), live_cons. simpl.
    destruct (_in_use b); simpl; [|apply IH; lia].
    destruct (hashmap_put fuel h mp (_key b) (_value b))
      as [[[st mp1] h1]|]; [|done].
    destruct (Z.eqb_spec st HASHMAP_OK) as [->|Hne]; simpl.
    + intros Hloop.
      pose proof (IH (S i) _ _ _ _ ltac:(lia) Hloop) as Hpl.
      unfold fmap in Hpl. by rewrite Hpl.
    + intros [= ? _ _]. done.
Qed.

Lemma hashmap_rehash_with_loop put h m :
  h 0 = true →
  hashmap_rehash_with put h (Some m)
  = rehash_loop put (_buckets m) (_max_size m) 0 (alloc h).2
      (Some (doubled m)).
Proof. intros Hok. unfold hashmap_rehash_with, alloc. by rewrite Hok. Qed.

Lemma hashmap_new_heap as_chars h max_size compare_fun hash_fun mp h' :
  hashmap_new as_chars h max_size compare_fun hash_fun
  = ((mp : hashmap_ptr), h') →
  all_succeed h → all_succeed h'.
Proof.
  unfold hashmap_new, alloc. intros Hnew Hall.
  rewrite !Hall in Hnew. simpl in Hnew. inversion Hnew; subst.
  intros n. apply Hall.
Qed.

(** ** Growth *)

(** C7 (capacity growth): take a table as [hashmap_new] returns it, with any
    strategies, [_max_size] slots, and [_max_size + 1] pairs whose keys are
    pairwise distinct for its comparator (each equal to itself); allocations
    succeed.  Putting the pairs one after the other, every put returns
    [HASHMAP_OK].  The first [_max_size] puts fill the table without growing
    it; the last one finds it full and rehashes: the rehash succeeds,
    doubles the capacity and yields the table obtained by putting the pairs
    of the occupied slots, in slot-index order, into the zeroed array of
    twice the size; the new pair is then placed in that table.  Afterwards
    [hashmap_get] returns [HASHMAP_OK] and the stored value for each of the
    [_max_size + 1] keys. *)
Theorem growth_keeps_all_keys as_chars fuel h max_size compare_fun hash_fun
    m0 h0 (kvs : list (key_ptr * value_ptr)) :
  all_succeed h →
  hashmap_new as_chars h max_size compare_fun hash_fun = (Some m0, h0) →
  length kvs = _max_size m0 + 1 →
  pairwise_distinct (_compare m0) kvs.*1 →
  ∃ m_full m_re mf k v,
    put_list (3 + fuel) h0 (Some m0) (take (_max_size m0) kvs)
    = Some (replicate (_max_size m0) HASHMAP_OK, Some m_full, h0)
    ∧ _max_size m_full = _max_size m0
    ∧ _cur_size m_full = _max_size m0
    ∧ kvs = take (_max_size m0) kvs ++ [(k, v)]
    ∧ hashmap_hash (Some m_full) k = HASHMAP_FULL
    ∧ hashmap_rehash (3 + fuel) h0 (Some m_full)
      = Some (HASHMAP_OK, Some m_re, (alloc h0).2)
    ∧ _max_size m_re = 2 * _max_size m0
    ∧ put_list (2 + fuel) (alloc h0).2 (Some (doubled m_full))
        (occupied_pairs m_full)
      = Some (replicate (_max_size m0) HASHMAP_OK, Some m_re, (alloc h0).2)
    ∧ hashmap_put (3 + fuel) h0 (Some m_full) k v
      = Some (HASHMAP_OK, Some mf, (alloc h0).2)
    ∧ mf = fill_bucket m_re (Z.to_nat (hashmap_hash (Some m_re) k)) k v
    ∧ put_list (3 + fuel) h0 (Some m0) kvs
      = Some (replicate (length kvs) HASHMAP_OK, Some mf, (alloc h0).2)
    ∧ _max_size mf = 2 * _max_size m0
    ∧ ∀ k' v', (k', v') ∈ kvs →
        hashmap_get (Some mf) k' = (HASHMAP_OK, Some v').
Proof.
  intros Hall Hnew Hlen Hpw.
  pose proof (hashmap_new_heap _ _ _ _ _ _ _ Hnew Hall) as Hall0.
  pose proof (hashmap_new_count_ok _ _ _ _ _ _ _ Hnew)
    as ((Hs0 & _ & _) & Hocc0 & Hcur0).
  set (M := _max_size m0) in *.
  set (l1 := take M kvs).
  (* the list is [l1] followed by one last pair *)
  assert (Hl1 : length l1 = M) by (unfold l1; rewrite length_take; lia).
  destruct (drop M kvs) as [|[k v] [|]] eqn:Edrop;
    try (apply (f_equal length) in Edrop; rewrite length_drop in Edrop;
         simpl in Edrop; lia).
  assert (Hkvs : kvs = l1 ++ [(k, v)]).
  { unfold l1. by rewrite <- Edrop, take_drop. }
  (* the keys are distinct as a collection *)
  pose proof (pairwise_distinct_keys _ _ Hpw) as Hd.
  assert (Hd1 : distinct_keys (_compare m0) l1.*1).
  { rewrite Hkvs, fmap_app in Hd. by eapply distinct_keys_app_l. }
  (* the empty table *)
  assert (Hst0 : stores m0 []).
  { split_and!; [done| |done].
    unfold occupied_pairs. unfold occupied in Hocc0.
    by apply length_zero_iff_nil in Hocc0 as ->. }
  (* the first M puts *)
  destruct (put_list_fresh (2 + fuel) h0 l1 m0 [] Hst0)
    as (m_full & Hput1 & Hst1 & Hmax1 & Hcmp1); [done|simpl; lia|].
  simpl in Hst1. rewrite Hl1 in Hput1.
  pose proof Hst1 as (Hs1 & Hp1 & Hc1).
  assert (Hfull : hashmap_hash (Some m_full) k = HASHMAP_FULL).
  { unfold hashmap_hash.
    replace (_cur_size m_full =? _max_size m_full) with true; [done|].
    symmetry. apply Nat.eqb_eq. lia. }
  (* the rehash *)
  destruct (hashmap_rehash_fresh (1 + fuel) h0 m_full l1 Hst1)
    as (m_re & Hre & Hst2 & Hmax2 & Hcmp2); [by rewrite Hcmp1|apply Hall0|].
  (* the last put, in the rehashed table *)
  destruct (hashmap_put_fresh (1 + fuel) (alloc h0).2 m_re l1 k v Hst2)
    as (Hput2 & Hst3 & Hmax3 & Hcmp3).
  { destruct Hs0. lia. }
  { intros k' v' Hk'. rewrite Hcmp2, Hcmp1.
    rewrite Hkvs, fmap_app in Hd. eapply distinct_keys_fresh; [exact Hd|].
    by apply (list_elem_of_fmap_2 fst) in Hk'. }
  set (mf := fill_bucket m_re (Z.to_nat (hashmap_hash (Some m_re) k)) k v) in *.
  assert (Hlast : hashmap_put (3 + fuel) h0 (Some m_full) k v
                  = Some (HASHMAP_OK, Some mf, (alloc h0).2)).
  { change (3 + fuel) with (S (2 + fuel)).
    rewrite hashmap_put_S, Hfull. simpl (_ =? _)%Z. cbv iota.
    change (2 + fuel) with (S (1 + fuel)). rewrite Hre. simpl (_ =? _)%Z.
    cbv iota. exact Hput2. }
  rewrite <- Hkvs in Hst3.
  exists m_full, m_re, mf, k, v. split_and!; try done.
  - lia.
  - lia.
  - change (2 + fuel) with (S (1 + fuel)).
    rewrite hashmap_rehash_with_loop in Hre by apply Hall0.
    apply rehash_loop_put_list in Hre; [|destruct Hs1; lia].
    rewrite drop_0 in Hre.
    replace (length (live (_buckets m_full))) with M in Hre; [done|].
    pose proof (stores_occupied _ _ Hst1) as Ho. unfold occupied in Ho. lia.
  - rewrite Hkvs at 1. rewrite put_list_app. fold l1.
    change (3 + fuel) with (S (2 + fuel)) in *. rewrite Hput1.
    cbn [put_list]. rewrite Hlast.
    rewrite Hlen. by rewrite Nat.add_1_r, replicate_S_end.
  - lia.
  - intros k' v' Hk'. eapply hashmap_get_stored; [exact Hst3| |done].
    unfold mf. simpl. by rewrite Hcmp2, Hcmp1.
Qed.

(** ** [hashmap_put] returns *)

(** With consistent counters and room left, [hashmap_hash] finds a slot. *)
Lemma hashmap_hash_room m k :
  count_ok m → _cur_size m < _max_size m →
  ∃ i, hashmap_hash (Some m) k = Z.of_nat i ∧ i < length (_buckets m).
Proof.
  intros ([Hlen Hpos] & Hocc & _) Hcur.
  destruct (free_slot_exists (_buckets m)) as (x & Hx & Hfree).
  { unfold occupied in Hocc. lia. }
  assert (Hux : usable m k x = true).
  { unfold usable, bucket_at. by rewrite Hfree. }
  destruct (probe_first_complete (_max_size m) (usable m k) (best_index m k) x)
    as [i Hp]; [by apply best_index_lt|lia|done|].
  exists i. split.
  - unfold hashmap_hash.
    destruct (Nat.eqb_spec (_cur_size m) (_max_size m)); [lia|].
    by rewrite hash_seek_probe, Hp.
  - rewrite Hlen. eapply probe_first_lt; [|done]. by apply best_index_lt.
Qed.

Lemma hashmap_put_room fuel h m k v :
  count_ok m → _cur_size m < _max_size m →
  hashmap_put (S fuel) h (Some m) k v
  = Some (HASHMAP_OK,
          Some (fill_bucket m (Z.to_nat (hashmap_hash (Some m) k)) k v), h)
  ∧ hashmap_hash (Some m) k ≠ HASHMAP_FULL.
Proof.
  intros Hm Hcur. destruct (hashmap_hash_room m k Hm Hcur) as (i & Hi & _).
  assert (Hne : hashmap_hash (Some m) k ≠ HASHMAP_FULL).
  { rewrite Hi. unfold HASHMAP_FULL. lia. }
  split; [|done]. rewrite hashmap_put_S.
  by apply Z.eqb_neq in Hne as ->.
Qed.

(** The re-insertion loop never needs a nested rehash and never fails:
    after [i] slots the new table counts at most [i] entries, fewer than
    its capacity. *)
Lemma rehash_loop_total fuel h old M :
  length old < M →
  ∀ n i mi,
    n + i = length old → count_ok mi → _cur_size mi ≤ i → _max_size mi = M →
    ∃ m', rehash_loop (hashmap_put (S fuel)) old n i h (Some mi)
          = Some (HASHMAP_OK, Some m', h)
        ∧ count_ok m' ∧ _cur_size m' ≤ length old ∧ _max_size m' = M.
Proof.
  intros HM. induction n as [|n IH]; intros i mi Hn Hok Hcur Hmax; simpl.
  - exists mi. split_and!; [done..|lia|done].
  - destruct (_in_use _); [|apply IH; [lia|done|lia|done]].
    destruct (hashmap_put_room fuel h mi
                (_key (default zero_bucket (old !! i)))
                (_value (default zero_bucket (old !! i))) Hok)
      as [-> Hne]; [lia|].
    simpl. apply IH; [lia|by apply count_ok_fill|simpl; lia|done].
Qed.

(** On a table with consistent counters, [hashmap_put] returns with a budget
    of three nested calls: [HASHMAP_OK], or [HASHMAP_FULL] with the table
    unchanged when it is full and the larger array cannot be allocated. *)
Lemma hashmap_put_total fuel h m k v :
  count_ok m →
  ∃ st m' h',
    hashmap_put (3 + fuel) h (Some m) k v = Some (st, Some m', h')
    ∧ count_ok m'
    ∧ (st = HASHMAP_OK
       ∨ (st = HASHMAP_FULL ∧ m' = m ∧ _cur_size m = _max_size m
          ∧ h 0 = false)).
Proof.
  intros Hok. pose proof Hok as ([Hlen Hpos] & Hocc & Hcur).
  destruct (decide (_cur_size m < _max_size m)) as [Hroom|Hfull].
  - destruct (hashmap_put_room (2 + fuel) h m k v Hok Hroom) as [Hput Hne].
    do 3 eexists. split; [exact Hput|]. split; [by apply count_ok_fill|by left].
  - assert (Heq : _cur_size m = _max_size m) by lia.
    change (3 + fuel) with (S (2 + fuel)). rewrite hashmap_put_S.
    unfold hashmap_hash at 1. rewrite Heq, Nat.eqb_refl. simpl (_ =? _)%Z.
    cbv iota. destruct (h 0) eqn:Eh.
    + rewrite hashmap_rehash_with_loop by done.
      destruct (rehash_loop_total (1 + fuel) (alloc h).2 (_buckets m)
                  (2 * _max_size m) ltac:(lia) (_max_size m) 0 (doubled m))
        as (m1 & Hloop & Hok1 & Hcur1 & Hmax1);
        [lia|by apply count_ok_doubled|simpl; lia|done|].
      change (2 + fuel) with (S (1 + fuel)). rewrite Hloop.
      simpl (_ =? _)%Z. cbv iota.
      destruct (hashmap_put_room (1 + fuel) (alloc h).2 m1 k v Hok1)
        as [Hput Hne];
        [lia|].
      do 3 eexists. split; [exact Hput|].
      split; [by apply count_ok_fill|by left].
    + unfold hashmap_rehash_with, alloc. rewrite Eh. simpl.
      do 3 eexists. split; [done|]. split; [done|]. right. done.
Qed.

(** ** The default comparator *)

Lemma strcmp_refl s : strcmp s s = 0%Z.
Proof.
  induction s as [|c s IH]; simpl; [done|]. by rewrite Ascii.eqb_refl.
Qed.

Lemma hashmap_key_compare_str_refl (as_chars : any_key_t → string) k :
  hashmap_key_compare_str as_chars k k = 0%Z.
Proof. apply strcmp_refl. Qed.

(** ** Overwriting counts as an insertion *)

(** When [hashmap_hash] chooses a slot already in use (the key is there),
    [hashmap_put] overwrites it: the number of occupied slots is unchanged
    but [_cur_size] is incremented all the same. *)
Lemma hashmap_put_overwrite fuel h m k v i :
  shape m → hashmap_hash (Some m) k = Z.of_nat i →
  _in_use (bucket_at m i) = true →
  ∃ m', hashmap_put (S fuel) h (Some m) k v = Some (HASHMAP_OK, Some m', h)
      ∧ bucket_at m' i = {| _key := k; _value := v; _in_use := true |}
      ∧ occupied m' = occupied m
      ∧ _cur_size m' = S (_cur_size m).
Proof.
  intros Hs Hi Hu. pose proof (hashmap_hash_lt _ _ _ Hs Hi) as Hlt.
  exists (fill_bucket m i k v). split_and!.
  - rewrite hashmap_put_S, Hi, Nat2Z.id.
    replace (Z.of_nat i =? HASHMAP_FULL)%Z with false; [done|].
    symmetry. apply Z.eqb_neq. unfold HASHMAP_FULL. lia.
  - by apply bucket_at_fill_eq.
  - rewrite occupied_fill by done. by rewrite Hu.
  - done.
Qed.

(** ** The key snapshot *)

Lemma realloc_cells_length {A} (old : option (list (cell A))) n :
  length (realloc_cells old n) = n.
Proof.
  unfold realloc_cells. rewrite length_app, length_replicate, length_take. lia.
Qed.

Lemma take_S_insert {A} (l : list A) j x :
  j < length l → take (S j) (<[j:=x]> l) = take j l ++ [x].
Proof.
  intros Hj. destruct (lookup_lt_is_Some_2 _ _ Hj) as [y Hy].
  rewrite take_insert_lt by lia. rewrite (take_S_r _ _ _ Hy).
  rewrite insert_app_r_alt by (rewrite length_take; lia).
  rewrite length_take. by replace (j - j `min` length l) with 0 by lia.
Qed.

(** The copy loop writes the keys of the occupied slots left to scan, in
    slot-index order, from cell [j] on, and leaves the other cells as they
    are. *)
Lemma keys_loop_spec m : ∀ n i j (keys : list (cell key_ptr)),
  n + i = length (_buckets m) →
  j + length (live (drop i (_buckets m))) ≤ _cur_size m →
  _cur_size m ≤ length keys →
  keys_loop m n i j keys
  = take j keys
    ++ (Stored <$> (_key <$> live (drop i (_buckets m))))
    ++ drop (j + length (live (drop i (_buckets m)))) keys.
Proof.
  induction n as [|n IH]; intros i j keys Hn Hj Hk; simpl.
  - rewrite drop_ge by lia. simpl. by rewrite Nat.add_0_r, take_drop.
  - assert (Hi : i < length (_buckets m)) by lia.
    destruct (Nat.ltb_spec j (_cur_size m)) as [Hlt|Hge].
    + rewrite (drop_S _ _ _ (bucket_at_lookup _ _ Hi)), live_cons in Hj |- *.
      destruct (_in_use (bucket_at m i)); simpl in Hj |- *.
      * rewrite IH; [|lia|lia|rewrite length_insert; lia].
        rewrite take_S_insert by lia.
        rewrite drop_insert_lt by lia.
        rewrite <- app_assoc. simpl.
        by replace (j + S (length (live (drop (S i) (_buckets m)))))
          with (S (j + length (live (drop (S i) (_buckets m))))) by lia.
      * apply IH; [lia|done..].
    + assert (Hnil : live (drop i (_buckets m)) = []).
      { apply length_zero_iff_nil. lia. }
      rewrite Hnil. simpl. by rewrite Nat.add_0_r, take_drop.
Qed.

(** What [hashmap_keys] hands out when it rebuilds the array: [_cur_size]
    cells, of which the first [occupied m] hold the keys of the occupied
    slots in slot-index order; the cells after them are not written. *)
Lemma hashmap_keys_rebuild h m :
  count_ok m → _cur_size m ≠ 0 → _changed m = true → h 0 = true →
  ∃ m' keys,
    hashmap_keys h (Some m)
    = (HASHMAP_OK, Some m', Some (keys, _cur_size m), (alloc h).2)
    ∧ keys = (Stored <$> occupied_keys m)
             ++ drop (occupied m) (realloc_cells (_keys m) (_cur_size m))
    ∧ length keys = _cur_size m
    ∧ _keys m' = Some keys ∧ _changed m' = false
    ∧ _buckets m' = _buckets m ∧ _cur_size m' = _cur_size m.
Proof.
  intros ([Hlen Hpos] & Hocc & Hcur) Hnz Hch Hok.
  unfold hashmap_keys, alloc.
  destruct (Nat.eqb_spec (_cur_size m) 0); [done|].
  rewrite Hch, Hok. simpl.
  pose proof (keys_loop_spec m (_max_size m) 0 0
                (realloc_cells (_keys m) (_cur_size m))) as Hloop.
  rewrite drop_0 in Hloop. simpl in Hloop.
  rewrite Hloop; [|lia|unfold occupied in Hocc; lia
                  |by rewrite realloc_cells_length].
  do 2 eexists. split; [done|]. split_and!; try done.
  rewrite length_app, !length_fmap, length_drop, realloc_cells_length.
  unfold occupied in *. lia.
Qed.

(** [hashmap_keys] returns [HASHMAP_EMPTY] exactly when [_cur_size] is
    zero. *)
Lemma hashmap_keys_empty_iff h m :
  (hashmap_keys h (Some m)).1.1.1 = HASHMAP_EMPTY ↔ _cur_size m = 0.
Proof.
  unfold hashmap_keys. destruct (Nat.eqb_spec (_cur_size m) 0) as [Hz|Hnz].
  - done.
  - split; [|done]. destruct (_changed m); [|done].
    destruct (alloc h) as [[] ?]; simpl; done.
Qed.

(** * Further properties *)

(** ** Probing order *)

Lemma probe_first_some_inv max P n c i :
  c < max → probe_first max P n c = Some i →
  ∃ d, d < n ∧ i = (c + d) mod max
     ∧ ∀ j, j < d → P ((c + j) mod max) = false.
Proof.
  revert c; induction n as [|n IH]; intros c Hc; simpl; [done|].
  destruct (P c) eqn:EP.
  - intros [= <-]. exists 0. split_and!; [lia| |lia].
    by rewrite Nat.add_0_r, Nat.mod_small.
  - intros Hp.
    assert (Hc' : (c + 1) mod max < max) by (apply Nat.mod_upper_bound; lia).
    destruct (IH _ Hc' Hp) as (d & Hd & Hi & Hbefore).
    exists (S d). split_and!; [lia|..].
    + rewrite Hi, Nat.Div0.add_mod_idemp_l. f_equal. lia.
    + intros [|j] Hj.
      * by rewrite Nat.add_0_r, Nat.mod_small.
      * specialize (Hbefore j ltac:(lia)).
        rewrite Nat.Div0.add_mod_idemp_l in Hbefore.
        by replace (c + S j) with (c + 1 + j) by lia.
Qed.

Lemma no_occupied_no_holds m k x : occupied m = 0 → holds m k x = false.
Proof.
  intros Hz. destruct (holds m k x) eqn:E; [|done]. exfalso.
  apply holds_in_use, bucket_at_live in E.
  unfold occupied in Hz. apply length_zero_iff_nil in Hz.
  rewrite Hz in E. by apply elem_of_nil in E.
Qed.

Lemma in_use_occupied m i : _in_use (bucket_at m i) = true → 0 < occupied m.
Proof.
  intros Hu%bucket_at_live. unfold occupied.
  destruct (live (_buckets m)); [by apply elem_of_nil in Hu|simpl; lia].
Qed.

(** ** Where a key is placed and found *)

(** X1 (placement): on a table with consistent counters, [hashmap_hash]
    returns [HASHMAP_FULL] exactly when [_cur_size = _max_size]: the bound of
    its loop is never what stops it.  Otherwise it returns the first slot,
    in the order [hash(key) % _max_size], [+1], [+2], ... (modulo
    [_max_size]), that is unused or holds an equal key; the index is inside
    the bucket array. *)
Theorem placement_first_usable m k :
  count_ok m →
  (hashmap_hash (Some m) k = HASHMAP_FULL ↔ _cur_size m = _max_size m)
  ∧ (_cur_size m ≠ _max_size m →
     ∃ d, d < _max_size m
        ∧ hashmap_hash (Some m) k
          = Z.of_nat ((best_index m k + d) mod _max_size m)
        ∧ (best_index m k + d) mod _max_size m < length (_buckets m)
        ∧ usable m k ((best_index m k + d) mod _max_size m) = true
        ∧ ∀ j, j < d →
            usable m k ((best_index m k + j) mod _max_size m) = false).
Proof.
  intros Hok. pose proof Hok as ([Hlen Hpos] & Hocc & Hcur).
  assert (Hroom : _cur_size m ≠ _max_size m →
                  hashmap_hash (Some m) k ≠ HASHMAP_FULL).
  { intros Hne. destruct (hashmap_hash_room m k Hok ltac:(lia)) as (i & -> & _).
    unfold HASHMAP_FULL. lia. }
  split.
  - split.
    + intros Hfull. destruct (decide (_cur_size m = _max_size m)); [done|].
      by destruct Hroom.
    + intros Heq. unfold hashmap_hash. by rewrite Heq, Nat.eqb_refl.
  - intros Hne.
    destruct (hashmap_hash_index m k (Hroom Hne)) as (i & Hi & _ & Hp).
    destruct (probe_first_some_inv _ _ _ _ _ (best_index_lt m k Hpos) Hp)
      as (d & Hd & -> & Hbefore).
    exists d. split_and!; [done|done| |by eapply probe_first_sat|done].
    rewrite Hlen. apply Nat.mod_upper_bound. lia.
Qed.

(** X2 (lookup is complete): on a table with its [_max_size] buckets and at
    least one counted entry, when the lookup passes no [NULL] bucket key to
    the comparator (it probes no never-used slot), [hashmap_get] returns
    [HASHMAP_NOT_FOUND] when no occupied slot holds a key equal to [key];
    as soon as some occupied slot does -- wherever it is, whatever was
    removed before -- it returns [HASHMAP_OK] and the value of the first
    such slot in probing order. *)
Theorem lookup_complete m k :
  shape m → _cur_size m ≠ 0 → None ∉ find_probes m k →
  ((∀ x, holds m k x = false) →
   hashmap_get (Some m) k = (HASHMAP_NOT_FOUND, None))
  ∧ (∀ x, holds m k x = true →
     ∃ d, d < _max_size m
        ∧ hashmap_get (Some m) k
          = (HASHMAP_OK,
             Some (_value (bucket_at m
                             ((best_index m k + d) mod _max_size m))))
        ∧ holds m k ((best_index m k + d) mod _max_size m) = true
        ∧ ∀ j, j < d →
            holds m k ((best_index m k + j) mod _max_size m) = false).
Proof.
  intros [Hlen Hpos] Hnz _.
  assert (Hfind : hashmap_find (Some m) k
                  = find_seek m k (_max_size m) (best_index m k)).
  { unfold hashmap_find. by destruct (Nat.eqb_spec (_cur_size m) 0). }
  split.
  - intros Hnone. unfold hashmap_get.
    rewrite Hfind, find_seek_probe, probe_first_none by done. done.
  - intros x Hx.
    destruct (probe_first_complete (_max_size m) (holds m k) (best_index m k) x)
      as [i Hp]; [by apply best_index_lt| |done|].
    { rewrite <- Hlen. by eapply in_use_lt, holds_in_use. }
    destruct (probe_first_some_inv _ _ _ _ _ (best_index_lt m k Hpos) Hp)
      as (d & Hd & Hi & Hbefore).
    exists d. rewrite <- Hi. split_and!; [done| |by eapply probe_first_sat|done].
    unfold hashmap_get. rewrite Hfind, find_seek_probe, Hp. simpl.
    destruct (Z.ltb_spec (Z.of_nat i) 0); [lia|]. by rewrite Nat2Z.id.
Qed.

(** X3 (removing an absent key): when no occupied slot holds a key equal to
    [key] and the lookup passes no [NULL] bucket key to the comparator (it
    probes no never-used slot), [hashmap_remove] returns [HASHMAP_EMPTY] (no
    counted entry) or [HASHMAP_NOT_FOUND], writes nothing to its output
    parameter and leaves every field of the table as it was, the [_changed]
    flag included. *)
Theorem remove_absent_key m k :
  (∀ x, holds m k x = false) → None ∉ find_probes m k →
  hashmap_remove (Some m) k
  = (if decide (_cur_size m = 0) then HASHMAP_EMPTY else HASHMAP_NOT_FOUND,
     Some m, None).
Proof.
  intros Hnone _. unfold hashmap_remove, hashmap_find.
  destruct (Nat.eqb_spec (_cur_size m) 0) as [Hz|Hnz].
  - by rewrite decide_True.
  - rewrite decide_False by done.
    rewrite find_seek_probe, probe_first_none by done. done.
Qed.

(** ** Operations on one key leave the other keys alone *)

Lemma equality_like_apart (cmp : hashmap_key_compare any_key_t) k0 k k' :
  equality_like cmp → cmp k0 k = 0%Z → cmp k k' ≠ 0%Z → cmp k0 k' ≠ 0%Z.
Proof.
  intros [Hsym Htrans] H0 Hne H1. apply Hne.
  eapply Htrans; [|exact H1]. by apply Hsym.
Qed.

(** What the model gives for a lookup of another key after a put with room
    left. *)
Lemma put_get_other_key fuel h m k v k' :
  count_ok m → _cur_size m < _max_size m →
  equality_like (_compare m) → _compare m k k' ≠ 0%Z →
  ∃ m', hashmap_put (S fuel) h (Some m) k v = Some (HASHMAP_OK, Some m', h)
      ∧ hashmap_get (Some m') k'
        = if decide (_cur_size m = 0) then (HASHMAP_NOT_FOUND, None)
          else hashmap_get (Some m) k'.
Proof.
  intros Hok Hroom Heq Hne. pose proof Hok as (Hs & Hocc & Hcur).
  destruct (hashmap_put_room fuel h m k v Hok Hroom) as [Hput Hnf].
  destruct (hashmap_hash_index m k Hnf) as (i & Hi & _ & Hp).
  rewrite Hi, Nat2Z.id in Hput.
  pose proof (hashmap_hash_lt _ _ _ Hs Hi) as Hlt.
  apply probe_first_sat in Hp.
  exists (fill_bucket m i k v). split; [done|].
  (* the slot written held no key equal to k' and holds none now *)
  assert (Hold : holds m k' i = false).
  { unfold holds. destruct (_in_use (bucket_at m i)) eqn:Eu;
      [|apply andb_false_r].
    unfold usable in Hp. rewrite Eu in Hp. simpl in Hp.
    rewrite andb_true_r in Hp. apply Z.eqb_eq in Hp.
    rewrite andb_true_r. apply Z.eqb_neq.
    by eapply equality_like_apart. }
  assert (Hsame : ∀ x, holds (fill_bucket m i k v) k' x = holds m k' x).
  { intros x. destruct (decide (x = i)) as [->|Hx].
    - rewrite Hold. unfold holds. rewrite bucket_at_fill_eq by done. simpl.
      rewrite andb_true_r. by apply Z.eqb_neq.
    - unfold holds. by rewrite bucket_at_fill_ne. }
  assert (Hfind : find_seek (fill_bucket m i k v) k' (_max_size m)
                    (best_index m k')
                  = find_seek m k' (_max_size m) (best_index m k')).
  { rewrite !find_seek_probe. simpl.
    by rewrite (probe_first_ext _ _ _ _ _ Hsame). }
  unfold hashmap_get, hashmap_find. simpl.
  change (best_index (fill_bucket m i k v) k') with (best_index m k').
  rewrite Hfind.
  destruct (decide (_cur_size m = 0)) as [Hz|Hnz].
  - rewrite find_seek_probe, probe_first_none; [done|].
    intros x. apply no_occupied_no_holds. lia.
  - destruct (Nat.eqb_spec (_cur_size m) 0); [done|].
    rewrite find_seek_probe.
    destruct (probe_first _ _ _ _) as [j|] eqn:Ej; simpl; [|done].
    destruct (Z.ltb_spec (Z.of_nat j) 0); [lia|]. rewrite Nat2Z.id.
    rewrite bucket_at_fill_ne; [done|].
    intros ->. apply probe_first_sat in Ej. congruence.
Qed.

(** X4 (put does not disturb other keys): with a comparator whose "equal"
    is symmetric and transitive, on a table with consistent counters and
    room left, [hashmap_put] of [key] returns [HASHMAP_OK] without touching
    the allocator.  A value that [hashmap_get] found for a key not equal to
    [key] is still found afterwards; and a key that no occupied slot held,
    not equal to [key], is still reported [HASHMAP_NOT_FOUND] when the
    lookup passes no [NULL] bucket key to the comparator. *)
Theorem put_keeps_other_keys fuel h m k v k' :
  count_ok m → _cur_size m < _max_size m →
  equality_like (_compare m) → _compare m k k' ≠ 0%Z →
  ∃ m', hashmap_put (S fuel) h (Some m) k v = Some (HASHMAP_OK, Some m', h)
      ∧ (∀ v', hashmap_get (Some m) k' = (HASHMAP_OK, Some v') →
               hashmap_get (Some m') k' = (HASHMAP_OK, Some v'))
      ∧ ((∀ x, holds m k' x = false) → None ∉ find_probes m' k' →
         hashmap_get (Some m') k' = (HASHMAP_NOT_FOUND, None)).
Proof.
  intros Hok Hroom Heq Hne.
  destruct (put_get_other_key fuel h m k v k' Hok Hroom Heq Hne)
    as (m' & Hput & Hget).
  exists m'. split; [done|]. split.
  - intros v' Hfound. rewrite Hget.
    destruct (decide (_cur_size m = 0)) as [Hz|]; [|done].
    unfold hashmap_get, hashmap_find in Hfound. by rewrite Hz in Hfound.
  - intros Hnone _. rewrite Hget.
    destruct (decide (_cur_size m = 0)) as [Hz|Hnz]; [done|].
    unfold hashmap_get, hashmap_find.
    destruct (Nat.eqb_spec (_cur_size m) 0); [done|].
    by rewrite find_seek_probe, probe_first_none.
Qed.

(** X5 (remove does not disturb other keys): with a comparator whose
    "equal" is symmetric and transitive, on a table with consistent
    counters, a value that [hashmap_get] finds for a key not equal to [key]
    is still found after [hashmap_remove] of [key], provided the lookup of
    that removal passes no [NULL] bucket key to the comparator (it finds
    [key], or probes no never-used slot). *)
Theorem remove_keeps_other_keys m k k' v' :
  count_ok m → equality_like (_compare m) → _compare m k k' ≠ 0%Z →
  None ∉ find_probes m k →
  hashmap_get (Some m) k' = (HASHMAP_OK, Some v') →
  hashmap_get (hashmap_remove (Some m) k).1.2 k' = (HASHMAP_OK, Some v').
Proof.
  intros Hok Heq Hne _ Hget. pose proof Hok as (Hs & Hocc & Hcur).
  unfold hashmap_remove.
  destruct (Z.ltb_spec (hashmap_find (Some m) k) 0) as [|Hge]; [done|].
  destruct (hashmap_find_index m k Hge) as (i & Hf & Hnz & Hh).
  rewrite Hf, Nat2Z.id. simpl.
  (* where k' is found *)
  assert (Hge' : (0 ≤ hashmap_find (Some m) k')%Z).
  { unfold hashmap_get in Hget.
    destruct (Z.ltb_spec (hashmap_find (Some m) k') 0); [congruence|done]. }
  destruct (hashmap_find_cases m k') as [[E _]|[(E & _)|(j & Hf' & _ & Hp')]];
    [rewrite E in Hge'; by compute in Hge'..|].
  pose proof (probe_first_sat _ _ _ _ _ Hp') as Hh'.
  assert (Hold : holds m k' i = false).
  { unfold holds. rewrite (holds_in_use _ _ _ Hh), andb_true_r.
    apply Z.eqb_neq. eapply equality_like_apart; [done| |done].
    by apply holds_compare. }
  assert (Hji : j ≠ i) by (intros ->; congruence).
  pose proof (in_use_lt _ _ (holds_in_use _ _ _ Hh)) as Hlt.
  assert (Hsame : ∀ x, holds (clear_bucket m i) k' x = holds m k' x).
  { intros x. destruct (decide (x = i)) as [->|Hx].
    - rewrite Hold. unfold holds. rewrite bucket_at_clear_eq by done.
      apply andb_false_r.
    - unfold holds. by rewrite bucket_at_clear_ne. }
  (* at least two slots are occupied, so the count stays positive *)
  assert (Hpos : _cur_size (clear_bucket m i) ≠ 0).
  { pose proof (occupied_clear _ _ (holds_in_use _ _ _ Hh)) as Hc.
    assert (0 < occupied (clear_bucket m i)).
    { apply (in_use_occupied _ j). rewrite bucket_at_clear_ne by done.
      by eapply holds_in_use. }
    simpl. lia. }
  unfold hashmap_get in *. unfold hashmap_find.
  destruct (Nat.eqb_spec (_cur_size (clear_bucket m i)) 0); [done|].
  rewrite find_seek_probe. simpl.
  change (best_index (clear_bucket m i) k') with (best_index m k').
  rewrite (probe_first_ext _ _ _ _ _ Hsame), Hp'. simpl.
  rewrite Hf' in Hget.
  destruct (Z.ltb_spec (Z.of_nat j) 0); [lia|]. rewrite Nat2Z.id in *.
  by rewrite bucket_at_clear_ne.
Qed.

(** ** What a rehash and a put do to the counters *)

(** The re-insertion loop counts one entry per occupied slot of the old
    array, and keeps the strategies and the key cache. *)
Lemma rehash_loop_recount fuel h old M (m0 : hashmap_map) :
  length old < M →
  ∀ n i mi,
    n + i = length old → count_ok mi →
    _cur_size mi = length (live (take i old)) → _max_size mi = M →
    _compare mi = _compare m0 → _hash mi = _hash m0 → _keys mi = _keys m0 →
    ∃ m', rehash_loop (hashmap_put (S fuel)) old n i h (Some mi)
          = Some (HASHMAP_OK, Some m', h)
        ∧ count_ok m' ∧ _cur_size m' = length (live old)
        ∧ _max_size m' = M
        ∧ _compare m' = _compare m0 ∧ _hash m' = _hash m0
        ∧ _keys m' = _keys m0.
Proof.
  intros HM. induction n as [|n IH];
    intros i mi Hn Hok Hcur Hmax Hc Hh Hk; simpl.
  - exists mi. rewrite take_ge in Hcur by lia. done.
  - assert (Hi : i < length old) by lia.
    destruct (lookup_lt_is_Some_2 _ _ Hi) as [b Hb]. rewrite Hb. simpl.
    pose proof (length_filter (λ b, Is_true (_in_use b)) (take i old)) as Hle.
    fold (live (take i old)) in Hle. rewrite length_take in Hle.
    assert (Hnext : length (live (take (S i) old))
                    = length (live (take i old))
                      + (if _in_use b then 1 else 0)).
    { rewrite (take_S_r _ _ _ Hb), live_app, length_app, live_single_length.
      done. }
    destruct (_in_use b).
    + destruct (hashmap_put_room fuel h mi (_key b) (_value b) Hok)
        as [-> Hne]; [lia|].
      simpl. apply IH; try done; [lia|by apply count_ok_fill|simpl; lia].
    + apply IH; try done; lia.
Qed.

Lemma rehash_with_recount fuel h m :
  count_ok m → h 0 = true →
  ∃ m', hashmap_rehash_with (hashmap_put (S fuel)) h (Some m)
        = Some (HASHMAP_OK, Some m', (alloc h).2)
      ∧ count_ok m'
      ∧ _max_size m' = 2 * _max_size m
      ∧ _cur_size m' = occupied m
      ∧ _compare m' = _compare m ∧ _hash m' = _hash m
      ∧ _keys m' = _keys m.
Proof.
  intros Hok Hmem. pose proof Hok as ([Hlen Hpos] & Hocc & Hcur).
  rewrite hashmap_rehash_with_loop by done.
  destruct (rehash_loop_recount fuel (alloc h).2 (_buckets m)
              (2 * _max_size m) m ltac:(lia) (_max_size m) 0 (doubled m))
    as (m' & Hloop & Hok' & Hcur' & Hmax' & Hc' & Hh' & Hk');
    [lia|by apply count_ok_doubled|done..|].
  exists m'. by split_and!.
Qed.

(** X6 (rehash): on a table with consistent counters, [hashmap_rehash]
    returns [HASHMAP_ERR] and leaves the table as it was when the new array
    cannot be allocated.  Otherwise it returns [HASHMAP_OK] -- the
    re-insertions never fail and never rehash again -- with twice the
    capacity, the same strategies and key cache, and [_cur_size] counted
    afresh: one entry per slot that was occupied. *)
Theorem rehash_recounts fuel h m :
  count_ok m →
  (h 0 = false →
   hashmap_rehash (S fuel) h (Some m)
   = Some (HASHMAP_ERR, Some m, (alloc h).2))
  ∧ (h 0 = true →
     ∃ m', hashmap_rehash (2 + fuel) h (Some m)
           = Some (HASHMAP_OK, Some m', (alloc h).2)
         ∧ count_ok m'
         ∧ _max_size m' = 2 * _max_size m
         ∧ _cur_size m' = occupied m
         ∧ _compare m' = _compare m ∧ _hash m' = _hash m
         ∧ _keys m' = _keys m).
Proof.
  intros Hok. split.
  - intros Hfail. simpl. unfold hashmap_rehash_with, alloc. by rewrite Hfail.
  - intros Hmem. change (2 + fuel) with (S (S fuel)). simpl.
    by apply rehash_with_recount.
Qed.

(** X7 (what a put returns): on a table with consistent counters,
    [hashmap_put] returns within three nested calls and keeps the counters
    consistent.  With room left it returns [HASHMAP_OK], does not allocate,
    keeps the capacity and adds one to [_cur_size].  On a full table it
    returns [HASHMAP_OK] with twice the capacity and [_cur_size] one more
    than the number of slots that were occupied when the allocation
    succeeds, and [HASHMAP_FULL] with the table unchanged when it fails. *)
Theorem put_outcome fuel h m k v :
  count_ok m →
  ∃ st m' h',
    hashmap_put (3 + fuel) h (Some m) k v = Some (st, Some m', h')
    ∧ count_ok m'
    ∧ (_cur_size m < _max_size m →
       st = HASHMAP_OK ∧ h' = h ∧ _max_size m' = _max_size m
       ∧ _cur_size m' = S (_cur_size m))
    ∧ (_cur_size m = _max_size m → h 0 = true →
       st = HASHMAP_OK ∧ _max_size m' = 2 * _max_size m
       ∧ _cur_size m' = S (occupied m))
    ∧ (_cur_size m = _max_size m → h 0 = false →
       st = HASHMAP_FULL ∧ m' = m).
Proof.
  intros Hok. pose proof Hok as ([Hlen Hpos] & Hocc & Hcur).
  destruct (decide (_cur_size m < _max_size m)) as [Hroom|Hfull].
  - destruct (hashmap_put_room (2 + fuel) h m k v Hok Hroom) as [Hput Hne].
    do 3 eexists. split; [exact Hput|].
    split_and!; [by apply count_ok_fill|done|intros; lia..].
  - assert (Heq : _cur_size m = _max_size m) by lia.
    change (3 + fuel) with (S (2 + fuel)). rewrite hashmap_put_S.
    unfold hashmap_hash at 1. rewrite Heq, Nat.eqb_refl. simpl (_ =? _)%Z.
    cbv iota. destruct (h 0) eqn:Eh.
    + destruct (rehash_with_recount (S fuel) h m Hok Eh)
        as (m1 & Hr & Hok1 & Hmax1 & Hcur1 & _).
      change (2 + fuel) with (S (S fuel)) in *. rewrite Hr.
      simpl (_ =? _)%Z. cbv iota.
      destruct (hashmap_put_room (S fuel) (alloc h).2 m1 k v Hok1)
        as [Hput' Hne].
      { unfold occupied in *.
        pose proof (length_filter (λ b, Is_true (_in_use b)) (_buckets m)).
        unfold live in *. lia. }
      do 3 eexists. split; [exact Hput'|].
      split_and!; [by apply count_ok_fill|intros; lia| |congruence].
      intros _ _. split_and!; [done|simpl; lia|simpl; lia].
    + unfold hashmap_rehash_with, alloc. rewrite Eh. simpl.
      do 3 eexists. split; [done|].
      split_and!; [done|intros; lia|done|done].
Qed.

(** ** Tables of distinct keys *)

Lemma stores_length_le m kvs : stores m kvs → length kvs ≤ _max_size m.
Proof.
  intros Hst. pose proof (stores_occupied _ _ Hst) as Hocc.
  destruct Hst as ([Hlen Hpos] & Hp & Hc). rewrite <- Hc, <- Hocc, <- Hlen.
  apply length_filter.
Qed.

(** X8 (adding a key): in a table whose occupied slots hold pairwise
    distinct keys, one slot per counted entry, [hashmap_put] of a key
    distinct from all of them returns [HASHMAP_OK] when memory is available,
    after a rehash if the table was full.  Afterwards the table holds the
    old pairs and the new one, and [hashmap_get] returns [HASHMAP_OK] and
    the stored value for each of their keys. *)
Theorem put_fresh_keeps_stored fuel h m kvs k v :
  stores m kvs → distinct_keys (_compare m) (kvs.*1 ++ [k]) → h 0 = true →
  ∃ m' h',
    hashmap_put (3 + fuel) h (Some m) k v = Some (HASHMAP_OK, Some m', h')
    ∧ stores m' (kvs ++ [(k, v)])
    ∧ _max_size m' = (if decide (length kvs < _max_size m) then _max_size m
                      else 2 * _max_size m)
    ∧ ∀ k' v', (k', v') ∈ kvs ++ [(k, v)] →
        hashmap_get (Some m') k' = (HASHMAP_OK, Some v').
Proof.
  intros Hst Hd Hmem. pose proof (stores_length_le _ _ Hst) as Hle.
  assert (Hfresh : ∀ k' v', (k', v') ∈ kvs → _compare m k' k ≠ 0%Z).
  { intros k' v' Hk'. eapply distinct_keys_fresh; [exact Hd|].
    by apply (list_elem_of_fmap_2 fst) in Hk'. }
  destruct (decide (length kvs < _max_size m)) as [Hroom|Hfull].
  - destruct (hashmap_put_fresh (2 + fuel) h m kvs k v Hst Hroom Hfresh)
      as (Hput & Hst' & Hmax' & Hcmp').
    do 2 eexists. split; [exact Hput|]. split_and!; [done..|].
    intros k' v' Hk'. eapply hashmap_get_stored; [exact Hst'| |done].
    by rewrite Hcmp', fmap_app.
  - pose proof Hst as (Hs & Hp & Hc).
    assert (Hhash : hashmap_hash (Some m) k = HASHMAP_FULL).
    { unfold hashmap_hash.
      replace (_cur_size m =? _max_size m) with true; [done|].
      symmetry. apply Nat.eqb_eq. lia. }
    destruct (hashmap_rehash_fresh (1 + fuel) h m kvs Hst)
      as (m1 & Hre & Hst1 & Hmax1 & Hcmp1);
      [by eapply distinct_keys_app_l|done|].
    destruct (hashmap_put_fresh (1 + fuel) (alloc h).2 m1 kvs k v Hst1)
      as (Hput & Hst' & Hmax' & Hcmp').
    { destruct Hs. lia. }
    { intros k' v' Hk'. rewrite Hcmp1. by eapply Hfresh. }
    do 2 eexists. split.
    { change (3 + fuel) with (S (2 + fuel)).
      rewrite hashmap_put_S, Hhash. simpl (_ =? _)%Z. cbv iota.
      change (2 + fuel) with (S (1 + fuel)). rewrite Hre. simpl (_ =? _)%Z.
      cbv iota. exact Hput. }
    split_and!; [done|lia|].
    intros k' v' Hk'. eapply hashmap_get_stored; [exact Hst'| |done].
    by rewrite Hcmp', Hcmp1, fmap_app.
Qed.

(** X9 (a rehash keeps the content): in a table whose occupied slots hold
    pairwise distinct keys, one slot per counted entry, a rehash with
    memory available returns [HASHMAP_OK] and yields a table of twice the
    capacity holding the same pairs, in which [hashmap_get] still returns
    the stored value of every key. *)
Theorem rehash_keeps_stored fuel h m kvs :
  stores m kvs → distinct_keys (_compare m) kvs.*1 → h 0 = true →
  ∃ m', hashmap_rehash (2 + fuel) h (Some m)
        = Some (HASHMAP_OK, Some m', (alloc h).2)
      ∧ stores m' kvs
      ∧ _max_size m' = 2 * _max_size m
      ∧ ∀ k v, (k, v) ∈ kvs → hashmap_get (Some m') k = (HASHMAP_OK, Some v).
Proof.
  intros Hst Hd Hmem.
  destruct (hashmap_rehash_fresh fuel h m kvs Hst Hd Hmem)
    as (m' & Hre & Hst' & Hmax' & Hcmp').
  exists m'. split_and!; [exact Hre|done..|].
  intros k v Hk. eapply hashmap_get_stored; [exact Hst'| |done].
  by rewrite Hcmp'.
Qed.

Lemma distinct_keys_cons_tail cmp (k : key_ptr) ks :
  distinct_keys cmp (k :: ks) → distinct_keys cmp ks ∧ k ∉ ks.
Proof.
  intros [Hnd Hd]. apply NoDup_cons in Hnd as [Hnin Hnd].
  split; [|done]. split; [done|].
  intros k1 k2 H1 H2. apply Hd; by apply elem_of_cons; right.
Qed.

(** X10 (removing a key): in a table whose occupied slots hold pairwise
    distinct keys, one slot per counted entry, [hashmap_remove] of a stored
    key returns [HASHMAP_OK] and its value.  The table then holds the other
    pairs, one slot per counted entry, and [hashmap_get] still returns the
    stored value of each of their keys.  [hashmap_get] of the removed key
    returns [HASHMAP_EMPTY] when nothing is left; otherwise it returns
    [HASHMAP_NOT_FOUND] when the lookup passes no [NULL] bucket key to the
    comparator (it probes no never-used slot). *)
Theorem remove_stored m kvs k v :
  stores m kvs → distinct_keys (_compare m) kvs.*1 → (k, v) ∈ kvs →
  ∃ m' kvs',
    hashmap_remove (Some m) k = (HASHMAP_OK, Some m', Some v)
    ∧ kvs ≡ₚ (k, v) :: kvs'
    ∧ stores m' kvs'
    ∧ (kvs' = [] → hashmap_get (Some m') k = (HASHMAP_EMPTY, None))
    ∧ (kvs' ≠ [] → None ∉ find_probes m' k →
       hashmap_get (Some m') k = (HASHMAP_NOT_FOUND, None))
    ∧ ∀ k' v', (k', v') ∈ kvs' →
        hashmap_get (Some m') k' = (HASHMAP_OK, Some v').
Proof.
  intros Hst Hd Hkv. pose proof Hst as (Hs & Hp & Hc).
  pose proof (hashmap_get_stored _ _ _ _ Hst Hd Hkv) as Hget.
  assert (Hge : (0 ≤ hashmap_find (Some m) k)%Z).
  { unfold hashmap_get in Hget.
    destruct (Z.ltb_spec (hashmap_find (Some m) k) 0); [congruence|done]. }
  destruct (hashmap_find_index m k Hge) as (i & Hf & Hnz & Hh).
  pose proof (holds_in_use _ _ _ Hh) as Hu.
  pose proof (in_use_lt _ _ Hu) as Hlt.
  assert (Hv : _value (bucket_at m i) = v).
  { unfold hashmap_get in Hget. rewrite Hf in Hget.
    destruct (Z.ltb_spec (Z.of_nat i) 0); [lia|].
    rewrite Nat2Z.id in Hget. congruence. }
  assert (Hk : _key (bucket_at m i) = k).
  { destruct Hd as [_ Hd]. apply Hd; [|by apply (list_elem_of_fmap_2 fst) in Hkv
                                      |by apply holds_compare].
    pose proof (stores_live _ _ _ Hst (bucket_at_live _ _ Hu)) as Hin.
    by apply (list_elem_of_fmap_2 fst) in Hin. }
  set (m' := clear_bucket m i).
  set (kvs' := occupied_pairs m').
  assert (Hperm : kvs ≡ₚ (k, v) :: kvs').
  { rewrite <- Hp. unfold kvs', occupied_pairs, m'. simpl.
    rewrite (live_insert _ _ _ Hlt),
      (live_split _ _ _ (bucket_at_lookup _ _ Hlt)).
    rewrite !live_cons, Hu. simpl. rewrite !fmap_app. simpl.
    change (pair_of (bucket_at m i))
      with (_key (bucket_at m i), _value (bucket_at m i)).
    rewrite Hk, Hv. symmetry. apply Permutation_middle. }
  assert (Hst' : stores m' kvs').
  { split_and!; [by apply shape_clear|done|].
    apply Permutation_length in Hperm. simpl in *. lia. }
  assert (Hd' : distinct_keys (_compare m) kvs'.*1 ∧ k ∉ kvs'.*1).
  { apply distinct_keys_cons_tail. eapply distinct_keys_perm; [|exact Hd].
    by rewrite Hperm. }
  destruct Hd' as [Hd' Hnin].
  exists m', kvs'. split_and!; [|done..| | |].
  - unfold hashmap_remove. rewrite Hf.
    destruct (Z.ltb_spec (Z.of_nat i) 0); [lia|]. rewrite Nat2Z.id.
    fold m'. unfold m'. rewrite bucket_at_clear_eq by done. simpl.
    by rewrite Hv.
  - intros Hnil. unfold hashmap_get, hashmap_find.
    destruct Hst' as (_ & _ & Hc'). rewrite Hc', Hnil. done.
  - assert (Hnone : ∀ x, holds m' k x = false).
    { intros x. destruct (holds m' k x) eqn:E; [|done]. exfalso.
      pose proof (stores_live _ _ _ Hst'
                    (bucket_at_live _ _ (holds_in_use _ _ _ E))) as Hin.
      apply (list_elem_of_fmap_2 fst) in Hin. simpl in Hin.
      destruct Hd as [_ Hd].
      assert (Hkx : _key (bucket_at m' x) = k).
      { apply Hd; [| |by apply holds_compare in E].
        - rewrite Hperm. simpl. by apply elem_of_cons; right.
        - by apply (list_elem_of_fmap_2 fst) in Hkv. }
      rewrite Hkx in Hin. done. }
    intros Hnn _. unfold hashmap_get, hashmap_find.
    destruct Hst' as (_ & _ & Hc').
    destruct (Nat.eqb_spec (_cur_size m') 0) as [Hz|_].
    { rewrite Hc' in Hz. by apply length_zero_iff_nil in Hz. }
    rewrite find_seek_probe, probe_first_none by done. done.
  - intros k' v' Hk'. by eapply hashmap_get_stored.
Qed.

(** ** The key snapshot when the counters agree *)

(** X11 (keys of a table of distinct entries): when every counted entry has
    its own occupied slot, the table is not empty, has changed since the
    last snapshot and the array can be allocated, [hashmap_keys] returns
    [HASHMAP_OK], the number of entries, and an array whose cells are all
    written: the keys of the occupied slots in slot-index order, each stored
    key once.  The bucket array is untouched and [_changed] is cleared. *)
Theorem keys_exact h m kvs :
  stores m kvs → kvs ≠ [] → _changed m = true → h 0 = true →
  ∃ m',
    hashmap_keys h (Some m)
    = (HASHMAP_OK, Some m',
       Some (Stored <$> occupied_keys m, length kvs), (alloc h).2)
    ∧ occupied_keys m ≡ₚ kvs.*1
    ∧ _buckets m' = _buckets m ∧ _cur_size m' = _cur_size m
    ∧ _changed m' = false.
Proof.
  intros Hst Hne Hch Hmem.
  pose proof (stores_occupied _ _ Hst) as Hocc.
  pose proof (stores_length_le _ _ Hst) as Hle.
  pose proof Hst as (Hs & Hp & Hc).
  assert (Hok : count_ok m) by (split_and!; [done|lia|lia]).
  destruct (hashmap_keys_rebuild h m Hok) as (m' & keys & Hk & -> & Hlen & _
                                             & Hch' & Hb' & Hc'); [|done..|].
  { rewrite Hc. destruct kvs; [done|simpl; lia]. }
  exists m'. rewrite Hk, Hocc, drop_ge, app_nil_r, Hc
    by (rewrite realloc_cells_length; lia).
  split_and!; [done| |done|congruence|done].
  unfold occupied_keys. rewrite <- pair_of_fst. by apply fmap_Permutation.
Qed.

(** X12 (the snapshot is cached): after a [hashmap_keys] that returned
    [HASHMAP_OK], calling it again before any put or remove returns the same
    array and count, changes nothing in the table and does not allocate --
    even when no memory is left. *)
Theorem keys_cached h m m' out h' h2 :
  hashmap_keys h (Some m) = (HASHMAP_OK, Some m', Some out, h') →
  hashmap_keys h2 (Some m') = (HASHMAP_OK, Some m', Some out, h2).
Proof.
  unfold hashmap_keys.
  destruct (Nat.eqb_spec (_cur_size m) 0) as [Hz|Hnz]; [done|].
  destruct (_changed m) eqn:Ech.
  - destruct (alloc h) as [[] h1]; simpl; [|done].
    intros [= <- <- <-]. simpl.
    by destruct (Nat.eqb_spec (_cur_size m) 0).
  - intros [= <- <- <-].
    destruct (Nat.eqb_spec (_cur_size m) 0); [done|]. by rewrite Ech.
Qed.

(** ** The two iterate entry points *)

Lemma visit_all_snoc {D : Type} (f : hashmap_fun any_value_t D) vs v
    (data : D) :
  visit_all f (vs ++ [v]) data = (f (visit_all f vs data) v).2.
Proof. unfold visit_all. by rewrite foldl_app. Qed.

Lemma visit_until_error_cases {D : Type} (f : hashmap_fun any_value_t D) vs :
  ∀ (data : D) st data',
    visit_until_error f vs data = (st, data') →
    (st = HASHMAP_OK ∧ data' = visit_all f vs data)
    ∨ (st ≠ HASHMAP_OK
       ∧ ∃ pre v post,
           vs = pre ++ v :: post
           ∧ visit_until_error f pre data
             = (HASHMAP_OK, visit_all f pre data)
           ∧ f (visit_all f pre data) v = (st, data')).
Proof.
  induction vs as [|v vs IH]; intros data st data'; cbn [visit_until_error].
  - intros [= <- <-]. by left.
  - destruct (f data v) as [s d1] eqn:Ef.
    destruct (Z.eqb_spec s HASHMAP_OK) as [->|Hne].
    + intros Hrest.
      destruct (IH _ _ _ Hrest) as [[-> ->]|(Hst & pre & w & post & -> & Hpre & Hw)].
      * left. split; [done|]. unfold visit_all. simpl. by rewrite Ef.
      * right. split; [done|]. exists (v :: pre), w, post.
        assert (Hva : visit_all f (v :: pre) data = visit_all f pre d1).
        { unfold visit_all. simpl. by rewrite Ef. }
        split_and!; [done| |by rewrite Hva].
        rewrite Hva. cbn [visit_until_error]. by rewrite Ef.
    + intros [= <- <-]. right. split; [done|].
      exists [], v, vs. by split_and!.
Qed.

(** X13 (early stop): on every table a client can hold, when
    [hashmap_iterate_check_ok_status] returns [HASHMAP_OK] it has made
    exactly the calls [hashmap_iterate] makes, with the same final state.
    Otherwise the status it returns is the one the callback returned on the
    value of some occupied slot: the callback returned [HASHMAP_OK] on the
    occupied slots before it, and was not called on those after it. *)
Theorem iterate_check_early_stop {D : Type} as_chars m
    (f : hashmap_fun any_value_t D) (data : D) st data' :
  reachable as_chars m →
  hashmap_iterate_check_ok_status (Some m) f data = (st, data') →
  (st = HASHMAP_OK ∧ hashmap_iterate (Some m) f data = (HASHMAP_OK, data'))
  ∨ (st ≠ HASHMAP_OK
     ∧ ∃ pre v post,
         occupied_values m = pre ++ v :: post
         ∧ visit_until_error f pre data = (HASHMAP_OK, visit_all f pre data)
         ∧ f (visit_all f pre data) v = (st, data')
         ∧ data' = visit_all f (pre ++ [v]) data).
Proof.
  intros Hm Hcheck.
  pose proof (reachable_count_ok _ _ Hm) as ([Hlen Hpos] & Hocc & Hcur).
  assert (Hboth :
    hashmap_iterate (Some m) f data
    = (HASHMAP_OK, visit_all f (occupied_values m) data)
    ∧ hashmap_iterate_check_ok_status (Some m) f data
      = visit_until_error f (occupied_values m) data).
  { unfold hashmap_iterate, hashmap_iterate_check_ok_status,
      hashmap_iterate_impl, occupied_values.
    destruct (Nat.eqb_spec (_cur_size m) 0) as [Hz|Hnz].
    - assert (Hnil : live (_buckets m) = []).
      { apply length_zero_iff_nil. unfold occupied in Hocc. lia. }
      by rewrite Hnil.
    - rewrite !iterate_loop_spec by lia. by rewrite drop_0. }
  destruct Hboth as [Hit Hck]. rewrite Hck in Hcheck.
  destruct (visit_until_error_cases _ _ _ _ _ Hcheck)
    as [[-> ->]|(Hst & pre & v & post & Hsplit & Hpre & Hv)].
  - left. by rewrite Hit.
  - right. split; [done|]. exists pre, v, post.
    split_and!; [done..|]. by rewrite visit_all_snoc, Hv.
Qed.

(** ** Invariants of the tables a client can hold *)

(** X14 (counters): every table made by [hashmap_new] and changed by
    [hashmap_put], [hashmap_remove] and [hashmap_keys] only, whatever these
    returned, has a bucket array of [_max_size] slots, at least one, and
    [occupied slots <= _cur_size <= _max_size]. *)
Theorem reachable_counters as_chars m :
  reachable as_chars m →
  length (_buckets m) = _max_size m ∧ 0 < _max_size m
  ∧ occupied m ≤ _cur_size m ∧ _cur_size m ≤ _max_size m.
Proof. intros ([? ?] & ? & ?)%reachable_count_ok. done. Qed.

(** ** hashmap_new *)

(** X15 (creation): [hashmap_new] returns [NULL] exactly when one of its two
    allocations fails.  Otherwise the table has the requested number of
    slots, 16 when 0 was requested, all unused; no counted entry; no key
    cache; the strategies passed, or the string ones for [NULL]; and every
    [hashmap_get] on it returns [HASHMAP_EMPTY]. *)
Theorem hashmap_new_spec as_chars h max_size compare_fun hash_fun :
  ((hashmap_new as_chars h max_size compare_fun hash_fun).1
   = (None : hashmap_ptr)
   ↔ h 0 = false ∨ h 1 = false)
  ∧ ∀ m h',
      hashmap_new as_chars h max_size compare_fun hash_fun = (Some m, h') →
      _max_size m = (if decide (max_size = 0) then HASHMAP_DEFAULT_SIZE
                     else max_size)
      ∧ _buckets m = replicate (_max_size m) zero_bucket
      ∧ occupied m = 0 ∧ _cur_size m = 0
      ∧ _keys m = None ∧ _changed m = true
      ∧ _compare m = default (hashmap_key_compare_str as_chars) compare_fun
      ∧ _hash m = default (hashmap_key_hash_str as_chars) hash_fun
      ∧ ∀ k, hashmap_get (Some m) k = (HASHMAP_EMPTY, None).
Proof.
  split.
  - unfold hashmap_new, alloc.
    destruct (h 0) eqn:E0; simpl; [|by split; [left|]].
    destruct (h 1) eqn:E1; simpl; [|by split; [right|]].
    split; [done|]. by intros [|].
  - intros m h' Hnew.
    pose proof (hashmap_new_count_ok _ _ _ _ _ _ _ Hnew) as (_ & Hocc & Hcur).
    apply hashmap_new_inv in Hnew as [Hm Hmax].
    split_and!; try done; try (by rewrite Hm);
      try (intros k; unfold hashmap_get, hashmap_find; by rewrite Hcur).
Qed.

(** ** Lookups and the [NULL] key of never-used buckets *)

Lemma find_seek_defined_spec (as_chars : any_key_t → string) m x n i :
  _compare m = hashmap_key_compare_str as_chars →
  (None ∉ seek_probes m (Some x) n i →
   find_seek_defined as_chars m (Some x) n i
   = Some (find_seek m (Some x) n i))
  ∧ (None ∈ seek_probes m (Some x) n i →
     find_seek_defined as_chars m (Some x) n i = None).
Proof.
  intros Hcmp. revert i.
  induction n as [|n IH]; intros i.
  { split; [done|]. by intros ?%elem_of_nil. }
  cbn [seek_probes find_seek find_seek_defined]. rewrite Hcmp.
  unfold hashmap_key_compare_str.
  destruct (_key (bucket_at m i)) as [y|] eqn:Hkey.
  - cbn [strcmp_keys c_str].
    destruct ((strcmp (as_chars y) (as_chars x) =? 0)%Z
              && _in_use (bucket_at m i)).
    + split; [done|].
      intros [?|?%elem_of_nil]%elem_of_cons; done.
    + destruct (IH ((i + 1) mod _max_size m)) as [IH1 IH2]. split.
      * intros [_ Hrest]%not_elem_of_cons. by apply IH1.
      * intros [?|Hrest]%elem_of_cons; [done|]. by apply IH2.
  - cbn [strcmp_keys]. split; [|done].
    intros Hnull. destruct Hnull. apply list_elem_of_here.
Qed.

(** X18 (where a lookup with the default comparator is defined): on a
    table with the default comparator and for a key that is not [NULL],
    [hashmap_find] calls [strcmp] on defined arguments only exactly when
    none of the bucket keys it passes to the comparator ([find_probes]) is
    [NULL]; it then returns what the model [hashmap_find] gives.  As soon
    as the lookup probes a never-used slot before it stops, it calls
    [strcmp] on a [NULL] key, because it compares before it tests
    [_in_use]. *)
Theorem lookup_defined (as_chars : any_key_t → string) m x :
  _compare m = hashmap_key_compare_str as_chars →
  (None ∉ find_probes m (Some x) →
   hashmap_find_defined as_chars m (Some x)
   = Some (hashmap_find (Some m) (Some x)))
  ∧ (None ∈ find_probes m (Some x) →
     hashmap_find_defined as_chars m (Some x) = None).
Proof.
  intros Hcmp. unfold find_probes, hashmap_find_defined, hashmap_find.
  destruct (_cur_size m =? 0).
  - split; [done|]. by intros ?%elem_of_nil.
  - by apply find_seek_defined_spec.
Qed.
End Properties.

(** * The code on concrete tables *)

Section Concrete.

Open Scope string_scope.
Open Scope Z_scope.

(** ** Tables built by the client calls of [Demo] are reachable *)

Lemma demo_new_reachable n :
  ∃ m, Demo.new n = Some m ∧ reachable id m.
Proof.
  unfold Demo.new.
  destruct (hashmap_new id Demo.plenty n None None) as [mp h'] eqn:E.
  assert (∃ m, mp = Some m) as [m ->].
  { unfold hashmap_new in E. simpl in E. inversion E. by eexists. }
  exists m. split; [done|]. by eapply reach_new.
Qed.

Lemma demo_put_reachable p k v m :
  p = Some m → reachable id m →
  ∃ m', Demo.put p k v = Some m' ∧ reachable id m'.
Proof.
  intros -> Hm.
  destruct (hashmap_put_total 0 Demo.plenty m (Some k) (Some v)
              (reachable_count_ok _ _ Hm)) as (st & m' & h' & Hput & _).
  exists m'. unfold Demo.put. change (3 + 0)%nat with 3%nat in Hput.
  rewrite Hput.
  split; [done|]. by eapply reach_put.
Qed.

Lemma demo_remove_reachable p k m :
  p = Some m → reachable id m →
  ∃ m', Demo.remove p k = Some m' ∧ reachable id m'.
Proof.
  intros -> Hm. unfold Demo.remove.
  destruct (hashmap_remove (Some m) (Some k)) as [[st mp] out] eqn:E.
  assert (∃ m', mp = Some m') as [m' ->].
  { unfold hashmap_remove in E.
    destruct (_ <? 0); inversion E; by eexists. }
  exists m'. split; [done|]. by eapply reach_remove.
Qed.

Lemma demo_one_reachable : reachable id Demo.one.
Proof.
  apply (reach_put id 1 Demo.plenty (Demo.fresh 2) (Some "a") (Some 1)
           HASHMAP_OK Demo.one Demo.plenty).
  - apply (reach_new id Demo.plenty 2 None None (Demo.fresh 2) Demo.plenty).
    reflexivity.
  - reflexivity.
Defined.

(** ** Overwriting a key *)

(** C1 (the code at the failing input): on a fresh table of 16 slots,
    [put "a" 1] then [put "a" 2].  [get "a"] yields 2 and one slot is
    occupied, but [_cur_size] is 1 after the first put and 2 after the
    second: the overwrite is counted as a new entry. *)
Theorem overwrite_increments_count :
  let t1 := Demo.put (Demo.new 16) "a" 1 in
  let t2 := Demo.put t1 "a" 2 in
  hashmap_get t2 (Some "a") = (HASHMAP_OK, Some (Some 2))
  ∧ Demo.live_slots t2 = [(Some "a", Some 2)]
  ∧ Demo.cur_size t1 = 1%nat
  ∧ Demo.cur_size t2 = 2%nat.
Proof. vm_compute. done. Qed.

(** ** Putting a key again after a removal *)

(** C2 (the code at the failing input): on a fresh table of 2 slots with
    the default strategies, ["a"] and ["e"] both start probing at slot 0.
    After [put "a" 1], [put "e" 2], [remove "a"], [put "e" 3] the table,
    which is reachable, has both slots occupied by the key ["e"]: the last
    put took the slot freed in front of the one that already held ["e"].
    Removing ["e"] once then leaves the older value in the table. *)
Theorem duplicate_key_after_remove :
  let t := Demo.put (Demo.remove (Demo.put (Demo.put (Demo.new 2) "a" 1)
                                    "e" 2) "a") "e" 3 in
  Demo.slots t = [(Some "e", Some 3, true); (Some "e", Some 2, true)]
  ∧ (∃ m, t = Some m ∧ reachable id m
        ∧ holds m (Some "e") 0 = true ∧ holds m (Some "e") 1 = true)
  ∧ hashmap_get t (Some "e") = (HASHMAP_OK, Some (Some 3))
  ∧ hashmap_get (Demo.remove t "e") (Some "e") = (HASHMAP_OK, Some (Some 2)).
Proof.
  intros t. split_and!; [by vm_compute| |by vm_compute..].
  destruct (demo_new_reachable 2) as (m0 & E0 & H0).
  destruct (demo_put_reachable _ "a" 1 _ E0 H0) as (m1 & E1 & H1).
  destruct (demo_put_reachable _ "e" 2 _ E1 H1) as (m2 & E2 & H2).
  destruct (demo_remove_reachable _ "a" _ E2 H2) as (m3 & E3 & H3).
  destruct (demo_put_reachable _ "e" 3 _ E3 H3) as (m4 & E4 & H4).
  exists m4. split_and!; [done|done|..].
  - assert (Hh : from_option (λ m, holds m (Some "e") 0) false t = true)
      by by vm_compute.
    unfold t in Hh. by rewrite E4 in Hh.
  - assert (Hh : from_option (λ m, holds m (Some "e") 1) false t = true)
      by by vm_compute.
    unfold t in Hh. by rewrite E4 in Hh.
Qed.

(** ** The key snapshot *)

(** C6 (the code at three failing inputs).
    - After [put "a" 1; put "a" 2] on a fresh table, [hashmap_keys] reports
      2 keys; the array has 2 cells, the second never written.
    - After [put "a" 1; put "b" 2; keys; remove "b"; put "a" 3] on a fresh
      table of 4 slots, [hashmap_keys] reports 2 keys, ["a"] and ["b"],
      while ["b"] is in no occupied slot.
    - After [put "a" 1; put "e" 2; remove "a"; put "e" 3] on a fresh table
      of 2 slots, [hashmap_keys] reports the key ["e"] twice. *)
Theorem keys_snapshot_mismatch :
  (let t := Demo.put (Demo.put (Demo.new 16) "a" 1) "a" 2 in
   (Demo.keys t).1 = (HASHMAP_OK, Some ([Stored (Some "a"); Indeterminate], 2%nat))
   ∧ Demo.live_slots t = [(Some "a", Some 2)])
  ∧ (let t := Demo.put (Demo.put (Demo.new 4) "a" 1) "b" 2 in
     let t' := Demo.put (Demo.remove (Demo.keys t).2 "b") "a" 3 in
     (Demo.keys t).1
     = (HASHMAP_OK, Some ([Stored (Some "a"); Stored (Some "b")], 2%nat))
     ∧ (Demo.keys t').1
       = (HASHMAP_OK, Some ([Stored (Some "a"); Stored (Some "b")], 2%nat))
     ∧ Demo.live_slots t' = [(Some "a", Some 3)]
     ∧ hashmap_get t' (Some "b") = (HASHMAP_NOT_FOUND, None))
  ∧ (let t := Demo.put (Demo.remove (Demo.put (Demo.put (Demo.new 2) "a" 1)
                                       "e" 2) "a") "e" 3 in
     (Demo.keys t).1
     = (HASHMAP_OK, Some ([Stored (Some "e"); Stored (Some "e")], 2%nat))).
Proof. vm_compute. done. Qed.

(** ** Removal of the last entry *)

(** C3 (counterexample to the claim as stated): on a fresh table,
    [put "a" 1] then [remove "a"] returns 1, and the following [get "a"]
    returns [HASHMAP_EMPTY], not [HASHMAP_NOT_FOUND]. *)
Lemma remove_last_then_get_empty :
  let t := Demo.put (Demo.new 16) "a" 1 in
  hashmap_get t (Some "a") = (HASHMAP_OK, Some (Some 1))
  ∧ (hashmap_remove t (Some "a")).1.1 = HASHMAP_OK
  ∧ (hashmap_remove t (Some "a")).2 = Some (Some 1)
  ∧ hashmap_get (Demo.remove t "a") (Some "a") = (HASHMAP_EMPTY, None)
  ∧ (hashmap_get (Demo.remove t "a") (Some "a")).1 ≠ HASHMAP_NOT_FOUND.
Proof. vm_compute. done. Qed.

(** The keys a lookup in [Demo.stale] passes to the comparator: both slots
    carry a key. *)
Lemma stale_probes_a :
  find_probes Demo.stale (Some "a") = [Some "a"; Some "e"].
Proof. reflexivity. Qed.

Lemma stale_probes_b :
  find_probes Demo.stale (Some "b") = [Some "e"; Some "a"].
Proof. reflexivity. Qed.

Lemma remove_then_get_witness :
  hashmap_remove (Some Demo.two) (Some "a")
  = (HASHMAP_OK, Some Demo.stale, Some (Some 1))
  ∧ find_probes Demo.stale (Some "a") = [Some "a"; Some "e"]
  ∧ hashmap_get (Some Demo.stale) (Some "a") = (HASHMAP_NOT_FOUND, None).
Proof.
  pose proof (remove_then_get Demo.two (Some "a") (Some 1)) as H.
  destruct H as (Hrm & _ & _ & _ & _ & _ & _ & _ & _ & Hnf).
  - vm_compute. reflexivity.
  - split; [exact Hrm|]. split; [exact stale_probes_a|]. apply Hnf.
    + discriminate.
    + intros [|[|j]] Hj; [|reflexivity..].
      exfalso. apply Hj. reflexivity.
    + change (None ∉ find_probes Demo.stale (Some "a")).
      rewrite stale_probes_a. no_null_key.
Defined.

(** ** A table drained by removes *)

(** C8 (the code at the failing input): on a fresh table of 2 slots with
    the default strategies, [put "a" 1], [put "e" 2], [remove "e"],
    [put "a" 3], [remove "a"].  The table, which is reachable, is drained:
    no slot is occupied.  But the second [put "a"] overwrote slot 0 and was
    counted as a new entry (the defect of C1), so [_cur_size] is 1 and not
    0, and [hashmap_get] and [hashmap_remove] return [HASHMAP_NOT_FOUND],
    not [HASHMAP_EMPTY].  Both slots carry a key, so the lookups pass no
    [NULL] to the comparator. *)
Theorem drained_table_not_found :
  let t := Demo.remove
             (Demo.put (Demo.remove (Demo.put (Demo.put (Demo.new 2) "a" 1)
                                       "e" 2) "e") "a" 3) "a" in
  Demo.slots t = [(Some "a", Some 3, false); (Some "e", Some 2, false)]
  ∧ Demo.live_slots t = []
  ∧ Demo.cur_size t = 1%nat
  ∧ (∃ m, t = Some m ∧ reachable id m
        ∧ find_probes m (Some "a") = [Some "a"; Some "e"]
        ∧ find_probes m (Some "e") = [Some "a"; Some "e"])
  ∧ hashmap_get t (Some "a") = (HASHMAP_NOT_FOUND, None)
  ∧ hashmap_get t (Some "e") = (HASHMAP_NOT_FOUND, None)
  ∧ (hashmap_remove t (Some "a")).1.1 = HASHMAP_NOT_FOUND
  ∧ (hashmap_remove t (Some "e")).1.1 = HASHMAP_NOT_FOUND
  ∧ HASHMAP_NOT_FOUND ≠ HASHMAP_EMPTY.
Proof.
  intros t.
  split_and!; [by vm_compute|by vm_compute|by vm_compute| |by vm_compute..].
  destruct (demo_new_reachable 2) as (m0 & E0 & H0).
  destruct (demo_put_reachable _ "a" 1 _ E0 H0) as (m1 & E1 & H1).
  destruct (demo_put_reachable _ "e" 2 _ E1 H1) as (m2 & E2 & H2).
  destruct (demo_remove_reachable _ "e" _ E2 H2) as (m3 & E3 & H3).
  destruct (demo_put_reachable _ "a" 3 _ E3 H3) as (m4 & E4 & H4).
  destruct (demo_remove_reachable _ "a" _ E4 H4) as (m5 & E5 & H5).
  exists m5. split_and!; [done|done|..].
  - assert (Hp : from_option (λ m, find_probes m (Some "a")) [] t
                 = [Some "a"; Some "e"]) by by vm_compute.
    unfold t in Hp. by rewrite E5 in Hp.
  - assert (Hp : from_option (λ m, find_probes m (Some "e")) [] t
                 = [Some "a"; Some "e"]) by by vm_compute.
    unfold t in Hp. by rewrite E5 in Hp.
Qed.

(** ** The default hash *)

(** X17 (values of the default hash): [hashmap_key_hash_str] is Bob
    Jenkins' one-at-a-time hash of the characters before the terminator.
    It gives 0 on the empty string, the published value 0xca2e9442 on
    ["a"] and 0x519e91f5 on the pangram of its reference test; ["a"] and
    ["e"] both get an even hash, so they share the start slot of a table
    of 2 slots.  A byte of 0x80 or more is added as a negative number: the
    one byte 0xe9 hashes to 1083721983. *)
Theorem hashmap_key_hash_str_values :
  hashmap_key_hash_str id (Some "") = 0
  ∧ hashmap_key_hash_str id (Some "a") = 3392050242
  ∧ hashmap_key_hash_str id (Some "e") = 286663184
  ∧ hashmap_key_hash_str id
      (Some "The quick brown fox jumps over the lazy dog") = 1369346549
  ∧ hashmap_key_hash_str id (Some (String (ascii_of_nat 233) EmptyString))
    = 1083721983
  ∧ best_index (Demo.fresh 2) (Some "a") = 0%nat
  ∧ best_index (Demo.fresh 2) (Some "e") = 0%nat.
Proof. vm_compute. done. Qed.

(** ** Allocation failure *)

(** C4 (counterexample to the claim as stated): on a full table of one
    slot with no memory left, [hashmap_rehash] returns [HASHMAP_ERR] but
    [hashmap_put] returns [HASHMAP_FULL]. *)
Lemma put_alloc_failure_returns_full :
  _cur_size Demo.full = _max_size Demo.full
  ∧ status_of (hashmap_rehash 3 Demo.exhausted (Some Demo.full))
    = Some HASHMAP_ERR
  ∧ status_of (hashmap_put 3 Demo.exhausted (Some Demo.full)
                 (Some "b") (Some 2))
    = Some HASHMAP_FULL
  ∧ status_of (hashmap_put 3 Demo.exhausted (Some Demo.full)
                 (Some "b") (Some 2))
    ≠ Some HASHMAP_ERR.
Proof. vm_compute. done. Qed.

Lemma put_full_alloc_failure_witness :
  hashmap_rehash 1 Demo.exhausted (Some Demo.full)
  = Some (HASHMAP_ERR, Some Demo.full, Demo.exhausted)
  ∧ hashmap_put 1 Demo.exhausted (Some Demo.full) (Some "b") (Some 2)
    = Some (HASHMAP_FULL, Some Demo.full, Demo.exhausted).
Proof.
  apply (put_full_alloc_failure 0 Demo.exhausted Demo.full (Some "b") (Some 2)).
  - reflexivity.
  - reflexivity.
Defined.

(** ** Instances on concrete tables *)

Lemma put_get_roundtrip_witness :
  hashmap_get (Some Demo.one) (Some "a") = (HASHMAP_OK, Some (Some 1)).
Proof.
  apply (put_get_roundtrip 1 Demo.plenty (Demo.fresh 2) (Some "a") (Some 1)
           (Some Demo.one) Demo.plenty).
  - split; [reflexivity|simpl; lia].
  - vm_compute. reflexivity.
  - reflexivity.
Defined.

Lemma empty_table_queries_witness :
  hashmap_get (Some (Demo.fresh 2)) (Some "a") = (HASHMAP_EMPTY, None)
  ∧ hashmap_remove (Some (Demo.fresh 2)) (Some "a")
    = (HASHMAP_EMPTY, Some (Demo.fresh 2), None)
  ∧ HASHMAP_EMPTY ≠ HASHMAP_NOT_FOUND.
Proof.
  apply (empty_table_queries (Demo.fresh 2) (Some "a")). reflexivity.
Defined.

Lemma iterate_empty_table_witness :
  hashmap_iterate (Some (Demo.fresh 2)) Demo.log [] = (HASHMAP_OK, [])
  ∧ hashmap_iterate_check_ok_status (Some (Demo.fresh 2)) Demo.log []
    = (HASHMAP_OK, []).
Proof.
  pose proof (iterate_empty_table (Demo.fresh 2) Demo.log [] (Some "a")
                Demo.plenty) as H.
  destruct H as (H1 & H2 & _).
  - reflexivity.
  - split; [exact H1|exact H2].
Defined.

Lemma iterate_visits_occupied_witness :
  hashmap_iterate (Some Demo.one) Demo.log [] = (HASHMAP_OK, [Some 1])
  ∧ hashmap_iterate_check_ok_status (Some Demo.one) Demo.log []
    = (HASHMAP_ERR, [Some 1]).
Proof.
  apply (iterate_visits_occupied id Demo.one Demo.log []).
  exact demo_one_reachable.
Defined.

Lemma abc_pairwise_distinct :
  pairwise_distinct (hashmap_key_compare_str id) Demo.abc.*1.
Proof.
  intros i j ki kj Hi Hj.
  destruct i as [|[|[|i]]]; simpl in Hi; try discriminate Hi;
    destruct j as [|[|[|j]]]; simpl in Hj; try discriminate Hj;
    injection Hi as <-; injection Hj as <-;
    vm_compute; split; intros H; (reflexivity || discriminate H).
Defined.

Lemma growth_keeps_all_keys_witness :
  ∃ mf,
    put_list 3 Demo.plenty (Some (Demo.fresh 2)) Demo.abc
    = Some ([HASHMAP_OK; HASHMAP_OK; HASHMAP_OK], Some mf, Demo.plenty)
    ∧ _max_size mf = 4%nat
    ∧ hashmap_get (Some mf) (Some "a") = (HASHMAP_OK, Some (Some 1))
    ∧ hashmap_get (Some mf) (Some "b") = (HASHMAP_OK, Some (Some 2))
    ∧ hashmap_get (Some mf) (Some "c") = (HASHMAP_OK, Some (Some 3)).
Proof.
  destruct (growth_keeps_all_keys id 0 Demo.plenty 2 None None
              (Demo.fresh 2) Demo.plenty Demo.abc)
    as (m_full & m_re & mf & k & v & _ & _ & _ & _ & _ & _ & _ & _ & _ & _
        & Hputs & Hmax & Hget).
  - intros n. reflexivity.
  - reflexivity.
  - reflexivity.
  - exact abc_pairwise_distinct.
  - exists mf. split; [exact Hputs|]. split; [exact Hmax|].
    split; [|split]; apply Hget.
    + apply list_elem_of_here.
    + apply list_elem_of_further, list_elem_of_here.
    + apply list_elem_of_further, list_elem_of_further, list_elem_of_here.
Defined.

End Concrete.
(** * Instances of the further properties *)

Section Instances.

Open Scope string_scope.
Open Scope Z_scope.

Lemma demo_one_count_ok : count_ok Demo.one.
Proof.
  split; [split; [reflexivity|simpl; lia]|].
  split; [vm_compute; lia|simpl; lia].
Defined.

Lemma demo_one_stores : stores Demo.one [(Some "a", Some 1)].
Proof.
  split; [split; [reflexivity|simpl; lia]|].
  split; [|reflexivity].
  change (occupied_pairs Demo.one) with [(Some "a", Some 1)]. reflexivity.
Defined.

Lemma demo_ab_distinct :
  distinct_keys (hashmap_key_compare_str id) [Some "a"; Some "b"].
Proof.
  apply (distinct_keys_app_l _ [Some "a"; Some "b"] [Some "c"]).
  apply pairwise_distinct_keys. exact abc_pairwise_distinct.
Defined.

Lemma demo_a_distinct : distinct_keys (hashmap_key_compare_str id) [Some "a"].
Proof.
  apply (distinct_keys_app_l _ [Some "a"] [Some "b"]). exact demo_ab_distinct.
Defined.

Lemma demo_two_stores :
  stores Demo.two [(Some "a", Some 1); (Some "e", Some 2)].
Proof.
  split; [split; [reflexivity|simpl; lia]|].
  split; [|reflexivity].
  change (occupied_pairs Demo.two)
    with [(Some "a", Some 1); (Some "e", Some 2)].
  reflexivity.
Defined.

Lemma demo_ae_distinct :
  distinct_keys (hashmap_key_compare_str id) [Some "a"; Some "e"].
Proof.
  apply pairwise_distinct_keys.
  intros i j ki kj Hi Hj.
  destruct i as [|[|i]]; simpl in Hi; try discriminate Hi;
    destruct j as [|[|j]]; simpl in Hj; try discriminate Hj;
    injection Hi as <-; injection Hj as <-;
    vm_compute; split; intros H; (reflexivity || discriminate H).
Defined.

Lemma spell_equality_like :
  equality_like (hashmap_key_compare_str Demo.spell).
Proof.
  split.
  - intros [[]|] [[]|]; vm_compute; intros H;
      (reflexivity || discriminate H).
  - intros [[]|] [[]|] [[]|]; vm_compute; intros H1 H2;
      first [reflexivity | discriminate H1 | discriminate H2].
Defined.

Lemma words1_count_ok : count_ok Demo.words1.
Proof.
  split; [split; [reflexivity|simpl; lia]|].
  split; [vm_compute; lia|simpl; lia].
Defined.

Lemma words2_count_ok : count_ok Demo.words2.
Proof.
  split; [split; [reflexivity|simpl; lia]|].
  split; [vm_compute; lia|simpl; lia].
Defined.

Lemma placement_first_usable_witness :
  hashmap_hash (Some Demo.one) (Some "b") = HASHMAP_FULL
  ↔ _cur_size Demo.one = _max_size Demo.one.
Proof.
  exact (proj1 (placement_first_usable Demo.one (Some "b") demo_one_count_ok)).
Defined.

Lemma stale_no_b x : holds Demo.stale (Some "b") x = false.
Proof. destruct x as [|[|x]]; reflexivity. Defined.

Lemma stale_b_not_null : None ∉ find_probes Demo.stale (Some "b").
Proof. rewrite stale_probes_b. no_null_key. Defined.

Lemma stale_a_not_null : None ∉ find_probes Demo.stale (Some "a").
Proof. rewrite stale_probes_a. no_null_key. Defined.

Lemma lookup_complete_witness :
  find_probes Demo.stale (Some "b") = [Some "e"; Some "a"]
  ∧ hashmap_get (Some Demo.stale) (Some "b") = (HASHMAP_NOT_FOUND, None).
Proof.
  split; [exact stale_probes_b|].
  apply (lookup_complete Demo.stale (Some "b")).
  - split; [reflexivity|simpl; lia].
  - discriminate.
  - exact stale_b_not_null.
  - exact stale_no_b.
Defined.

Lemma remove_absent_key_witness :
  hashmap_remove (Some Demo.stale) (Some "b")
  = (HASHMAP_NOT_FOUND, Some Demo.stale, None).
Proof.
  exact (remove_absent_key Demo.stale (Some "b") stale_no_b
           stale_b_not_null).
Defined.

Lemma put_keeps_other_keys_witness :
  let m' := fill_bucket Demo.words1 0 (Some Demo.word_a) (Some 3) in
  hashmap_put 1 Demo.plenty (Some Demo.words1) (Some Demo.word_a) (Some 3)
  = Some (HASHMAP_OK, Some m', Demo.plenty)
  ∧ hashmap_get (Some m') (Some Demo.word_e) = (HASHMAP_OK, Some (Some 2))
  ∧ find_probes m' (Some Demo.word_b) = [Some Demo.word_e; Some Demo.word_a]
  ∧ hashmap_get (Some m') (Some Demo.word_b) = (HASHMAP_NOT_FOUND, None).
Proof.
  intros m'.
  assert (Hput : hashmap_put 1 Demo.plenty (Some Demo.words1)
                   (Some Demo.word_a) (Some 3)
                 = Some (HASHMAP_OK, Some m', Demo.plenty)) by reflexivity.
  assert (Hprobes : find_probes m' (Some Demo.word_b)
                    = [Some Demo.word_e; Some Demo.word_a]) by reflexivity.
  split; [exact Hput|]. split; [|split; [exact Hprobes|]].
  - destruct (put_keeps_other_keys 0 Demo.plenty Demo.words1
                (Some Demo.word_a) (Some 3) (Some Demo.word_e))
      as (m'' & Hput' & Hfound & _).
    + exact words1_count_ok.
    + simpl. lia.
    + exact spell_equality_like.
    + by vm_compute.
    + rewrite Hput in Hput'. injection Hput' as <-.
      apply Hfound. reflexivity.
  - destruct (put_keeps_other_keys 0 Demo.plenty Demo.words1
                (Some Demo.word_a) (Some 3) (Some Demo.word_b))
      as (m'' & Hput' & _ & Habsent).
    + exact words1_count_ok.
    + simpl. lia.
    + exact spell_equality_like.
    + by vm_compute.
    + rewrite Hput in Hput'. injection Hput' as <-.
      apply Habsent.
      * intros [|[|x]]; reflexivity.
      * rewrite Hprobes. no_null_key.
Defined.

Lemma remove_keeps_other_keys_witness :
  find_probes Demo.words2 (Some Demo.word_a) = [Some Demo.word_a]
  ∧ hashmap_get (hashmap_remove (Some Demo.words2) (Some Demo.word_a)).1.2
      (Some Demo.word_e)
    = (HASHMAP_OK, Some (Some 2)).
Proof.
  assert (Hprobes : find_probes Demo.words2 (Some Demo.word_a)
                    = [Some Demo.word_a]) by reflexivity.
  split; [exact Hprobes|].
  apply (remove_keeps_other_keys Demo.words2 (Some Demo.word_a)
           (Some Demo.word_e) (Some 2)).
  - exact words2_count_ok.
  - exact spell_equality_like.
  - by vm_compute.
  - rewrite Hprobes. no_null_key.
  - reflexivity.
Defined.

Lemma rehash_recounts_witness :
  hashmap_rehash 1 Demo.exhausted (Some Demo.one)
  = Some (HASHMAP_ERR, Some Demo.one, (alloc Demo.exhausted).2).
Proof.
  exact (proj1 (rehash_recounts 0 Demo.exhausted Demo.one demo_one_count_ok)
           eq_refl).
Defined.

Lemma put_outcome_witness :
  ∃ st m' h',
    hashmap_put 3 Demo.plenty (Some Demo.one) (Some "b") (Some 2)
    = Some (st, Some m', h')
    ∧ count_ok m'.
Proof.
  destruct (put_outcome 0 Demo.plenty Demo.one (Some "b") (Some 2)
              demo_one_count_ok) as (st & m' & h' & Hput & Hok & _).
  exists st, m', h'. split; [exact Hput|exact Hok].
Defined.

Lemma put_fresh_keeps_stored_witness :
  ∃ m' h',
    hashmap_put 3 Demo.plenty (Some Demo.one) (Some "b") (Some 2)
    = Some (HASHMAP_OK, Some m', h')
    ∧ stores m' [(Some "a", Some 1); (Some "b", Some 2)].
Proof.
  destruct (put_fresh_keeps_stored 0 Demo.plenty Demo.one
              [(Some "a", Some 1)] (Some "b") (Some 2))
    as (m' & h' & Hput & Hst & _).
  - exact demo_one_stores.
  - exact demo_ab_distinct.
  - reflexivity.
  - exists m', h'. split; [exact Hput|exact Hst].
Defined.

Lemma rehash_keeps_stored_witness :
  ∃ m', hashmap_rehash 2 Demo.plenty (Some Demo.one)
        = Some (HASHMAP_OK, Some m', (alloc Demo.plenty).2)
      ∧ stores m' [(Some "a", Some 1)]
      ∧ _max_size m' = 4%nat.
Proof.
  destruct (rehash_keeps_stored 0 Demo.plenty Demo.one [(Some "a", Some 1)])
    as (m' & Hre & Hst & Hmax & _).
  - exact demo_one_stores.
  - exact demo_a_distinct.
  - reflexivity.
  - exists m'. split; [exact Hre|]. split; [exact Hst|exact Hmax].
Defined.

Lemma remove_stored_witness :
  hashmap_remove (Some Demo.two) (Some "a")
  = (HASHMAP_OK, Some Demo.stale, Some (Some 1))
  ∧ stores Demo.stale [(Some "e", Some 2)]
  ∧ hashmap_get (Some Demo.stale) (Some "a") = (HASHMAP_NOT_FOUND, None)
  ∧ hashmap_get (Some Demo.stale) (Some "e") = (HASHMAP_OK, Some (Some 2)).
Proof.
  destruct (remove_stored Demo.two [(Some "a", Some 1); (Some "e", Some 2)]
              (Some "a") (Some 1))
    as (m' & kvs' & Hrm & Hperm & Hst & _ & Habsent & Hrest).
  - exact demo_two_stores.
  - exact demo_ae_distinct.
  - apply list_elem_of_here.
  - assert (Hm : hashmap_remove (Some Demo.two) (Some "a")
                 = (HASHMAP_OK, Some Demo.stale, Some (Some 1)))
      by reflexivity.
    pose proof (eq_trans (eq_sym Hm) Hrm) as E. injection E as <-.
    apply Permutation_cons_inv, Permutation_sym, Permutation_singleton_r
      in Hperm.
    subst kvs'.
    split; [exact Hm|]. split; [exact Hst|]. split.
    + apply Habsent; [discriminate|exact stale_a_not_null].
    + apply Hrest, list_elem_of_here.
Defined.

Lemma keys_exact_witness :
  ∃ m',
    hashmap_keys Demo.plenty (Some Demo.one)
    = (HASHMAP_OK, Some m',
       Some (Stored <$> occupied_keys Demo.one, 1%nat), (alloc Demo.plenty).2)
    ∧ occupied_keys Demo.one ≡ₚ [Some "a"].
Proof.
  destruct (keys_exact Demo.plenty Demo.one [(Some "a", Some 1)])
    as (m' & Hk & Hperm & _).
  - exact demo_one_stores.
  - discriminate.
  - reflexivity.
  - reflexivity.
  - exists m'. split; [exact Hk|exact Hperm].
Defined.

Lemma keys_cached_witness :
  hashmap_keys Demo.exhausted
    (hashmap_keys Demo.plenty (Some Demo.one)).1.1.2
  = (HASHMAP_OK, (hashmap_keys Demo.plenty (Some Demo.one)).1.1.2,
     Some ([Stored (Some "a")], 1%nat), Demo.exhausted).
Proof.
  eapply (keys_cached Demo.plenty Demo.one _ _ _ Demo.exhausted).
  reflexivity.
Defined.

Lemma iterate_check_early_stop_witness :
  (HASHMAP_ERR = HASHMAP_OK
   ∧ hashmap_iterate (Some Demo.one) Demo.log [] = (HASHMAP_OK, [Some 1]))
  ∨ (HASHMAP_ERR ≠ HASHMAP_OK
     ∧ ∃ (pre : list (option Z)) v post,
         occupied_values Demo.one = (pre ++ v :: post)%list
         ∧ visit_until_error Demo.log pre []
           = (HASHMAP_OK, visit_all Demo.log pre [])
         ∧ Demo.log (visit_all Demo.log pre []) v = (HASHMAP_ERR, [Some 1])
         ∧ [Some 1] = visit_all Demo.log (pre ++ [v])%list []).
Proof.
  apply (iterate_check_early_stop id Demo.one Demo.log [] HASHMAP_ERR
           [Some 1]).
  - exact demo_one_reachable.
  - reflexivity.
Defined.

Lemma reachable_counters_witness :
  length (_buckets Demo.one) = _max_size Demo.one
  ∧ (0 < _max_size Demo.one)%nat
  ∧ (occupied Demo.one ≤ _cur_size Demo.one)%nat
  ∧ (_cur_size Demo.one ≤ _max_size Demo.one)%nat.
Proof. exact (reachable_counters id Demo.one demo_one_reachable). Defined.

Lemma lookup_defined_witness :
  find_probes Demo.one (Some "b") = [None; Some "a"]
  ∧ hashmap_find_defined id Demo.one (Some "b") = None
  ∧ hashmap_find_defined id Demo.stale (Some "b") = Some HASHMAP_NOT_FOUND.
Proof.
  assert (Hprobes : find_probes Demo.one (Some "b") = [None; Some "a"])
    by reflexivity.
  split; [exact Hprobes|]. split.
  - apply (proj2 (lookup_defined id Demo.one "b" eq_refl)).
    rewrite Hprobes. apply list_elem_of_here.
  - exact (proj1 (lookup_defined id Demo.stale "b" eq_refl)
             stale_b_not_null).
Defined.

End Instances.
